(** * koketama/redblacktree: a multi-valued red-black tree

    The engine of [redblacktree.go] ([Tree], [Node], [Put], [Get], [Remove],
    [Left], [Right], [Floor], [Ceiling], [Clear], [String] with [output],
    the rotations and the insertion and deletion case chains) embedded as
    Rocq functions, and the properties of the specification proved about
    them, followed by what else the code shows: the tree as a map from keys
    to value lists, the search order and the height after every call, the
    rotations, the rendering.

    The Go nodes are heap cells linked by [left], [right] and [parent]
    pointers.  Here a tree is an inductive [Node]; a pointer to a node of the
    tree is a location [loc]: the subtree hanging at the node together with
    the way up to the root, one [frame] per ancestor.  [node.parent] is the
    first frame, [node.parent.parent] the second one, and
    [node == node.parent.left] holds when the first frame is a [LeftOf].
    Writing through a pointer rebuilds the location, so a location is at the
    same time the pointer and the state of the whole tree.

    A nil dereference (a Go panic) is [None].  The insertion cases and the
    deletion cases call each other; they take a [fuel], the depth of calls
    they may make, and also return [None] when it runs out, which does not
    happen with the fuel that [Put] and [Remove] give them
    ([insertCase1_fuel], [deleteCase1_fuel]).

    The methods take a lock for their whole duration; one caller at a time
    is modelled and the lock is left out. *)

From Stdlib Require Import ZArith List Bool Ascii String DecimalString Lia
  Sorted.
Import ListNotations.

Notation "x <- e ;; k" := (match e with Some x => k | None => None end)
  (at level 61, e at next level, right associativity, only parsing).

(** [type color bool] with [black, red = true, false]. *)
Inductive color := black | red.

Definition isBlack (c : color) : bool :=
  match c with black => true | red => false end.

Definition isRed (c : color) : bool :=
  match c with black => false | red => true end.

(** [a && b] of Go where evaluating [b] may panic: [b] is not evaluated when
    [a] is false. *)
Definition andAlso (a : bool) (b : option bool) : option bool :=
  if a then b else Some false.

(** [utils.IntComparator] of the gods library, the comparator of the tests. *)
Definition IntComparator (a b : Z) : Z :=
  if (a >? b)%Z then 1%Z else if (a <? b)%Z then (-1)%Z else 0%Z.

(** How an int key prints with the verb [%+v]: its decimal digits, after a
    minus sign when it is negative. *)
Definition formatZ (k : Z) : string := NilZero.string_of_int (Z.to_int k).

(** [type Entity string] of the tests, with [ID() = string(e)]. *)
Definition Entity := string.
Definition EntityID (e : Entity) : string := e.

Section Engine.

(** Keys are the non-nil values of [interface{}] that the comparator accepts,
    values the non-nil implementations of [Value]; [ID] is [Value.ID]. *)
Variable K : Type.
Variable V : Type.
Variable ID : V -> string.

(** [tree.comparator], a [utils.Comparator]: negative, zero or positive. *)
Variable comparator : K -> K -> Z.

(** [Node]: [Nil] is the nil pointer; the [parent] field is the [path] of a
    location. *)
Inductive Node :=
| Nil
| Nd (c : color) (left : Node) (key : K) (values : list V) (right : Node).

(** [Tree]: [size] is a Go [int]; it counts stored values, which all sit in
    memory, so it stays far from the 63-bit bound and is kept as an unbounded
    integer. *)
Record Tree := mkTree { root : Node; size : Z }.

Inductive frame :=
| LeftOf (c : color) (key : K) (values : list V) (right : Node)
| RightOf (c : color) (left : Node) (key : K) (values : list V).

Abbreviation path := (list frame).
Abbreviation loc := (Node * list frame)%type.

Inductive side := L | R.

Definition fill (f : frame) (n : Node) : Node :=
  match f with
  | LeftOf c k vs r => Nd c n k vs r
  | RightOf c l k vs => Nd c l k vs n
  end.

(** The tree a location lives in: what [tree.root] points to. *)
Fixpoint plug (n : Node) (p : path) : Node :=
  match p with
  | [] => n
  | f :: p' => plug (fill f n) p'
  end.

Definition rootOf (node : loc) : Node := plug (fst node) (snd node).

(** [nodeColor]: nil counts as black. *)
Definition nodeColor (node : Node) : color :=
  match node with
  | Nil => black
  | Nd c _ _ _ _ => c
  end.

(** [nodeColor] of a pointer that may be nil ([None]). *)
Definition colorOf (node : option loc) : color :=
  match node with
  | None => black
  | Some n => nodeColor (fst n)
  end.

(** ** Following pointers *)

(** [node.parent]; [None] is the nil parent of the root. *)
Definition parent (node : loc) : option loc :=
  match snd node with
  | [] => None
  | f :: p => Some (fill f (fst node), p)
  end.

(** [node.grandparent()]. *)
Definition grandparent (node : loc) : option loc :=
  match parent node with
  | Some p => parent p
  | None => None
  end.

(** Which child of its parent the node is: [L] when
    [node == node.parent.left]. *)
Definition sideOf (node : loc) : option side :=
  match snd node with
  | [] => None
  | LeftOf _ _ _ _ :: _ => Some L
  | RightOf _ _ _ _ :: _ => Some R
  end.

(** [node.left] and [node.right] as pointers; [None] when [node] is nil. *)
Definition leftChild (node : loc) : option loc :=
  match fst node with
  | Nil => None
  | Nd c l k vs r => Some (l, LeftOf c k vs r :: snd node)
  end.

Definition rightChild (node : loc) : option loc :=
  match fst node with
  | Nil => None
  | Nd c l k vs r => Some (r, RightOf c l k vs :: snd node)
  end.

Definition child (s : side) (node : loc) : option loc :=
  match s with L => leftChild node | R => rightChild node end.

(** [node.sibling()] read as a subtree: nil without a parent. *)
Definition sibling (node : loc) : Node :=
  match snd node with
  | [] => Nil
  | LeftOf _ _ _ r :: _ => r
  | RightOf _ l _ _ :: _ => l
  end.

(** [node.sibling()] as a pointer into the tree. *)
Definition siblingLoc (node : loc) : option loc :=
  match snd node with
  | [] => None
  | LeftOf c k vs r :: p => Some (r, RightOf c (fst node) k vs :: p)
  | RightOf c l k vs :: p => Some (l, LeftOf c k vs (fst node) :: p)
  end.

(** [node.uncle()]. *)
Definition uncle (node : loc) : Node :=
  match parent node with
  | None => Nil
  | Some p => sibling p
  end.

(** [n.left], [n.right] of a subtree; [None] is the panic on nil. *)
Definition leftOf (n : Node) : option Node :=
  match n with Nil => None | Nd _ l _ _ _ => Some l end.

Definition rightOf (n : Node) : option Node :=
  match n with Nil => None | Nd _ _ _ _ r => Some r end.

(** ** Writing through pointers *)

(** [node.color = c]. *)
Definition setColor (c : color) (node : loc) : option loc :=
  match fst node with
  | Nil => None
  | Nd _ l k vs r => Some (Nd c l k vs r, snd node)
  end.

(** [f] applied at [node.parent], at [node.sibling()], at [node.left] and at
    [node.right], for an [f] that leaves its node in its place; the result is
    [node] again. *)
Definition atParent (f : loc -> option loc) (node : loc) : option loc :=
  s <- sideOf node ;;
  p <- parent node ;;
  p' <- f p ;;
  child s p'.

Definition atSibling (f : loc -> option loc) (node : loc) : option loc :=
  s <- siblingLoc node ;;
  s' <- f s ;;
  siblingLoc s'.

Definition atLeft (f : loc -> option loc) (node : loc) : option loc :=
  c <- leftChild node ;;
  c' <- f c ;;
  parent c'.

Definition atRight (f : loc -> option loc) (node : loc) : option loc :=
  c <- rightChild node ;;
  c' <- f c ;;
  parent c'.

(** ** Rotations *)

(** [replaceNode(old, new)] stores [new] in the slot [old] hangs in, the
    child field of the parent or [tree.root], and sets [new.parent]: [new]
    takes the path of [old]. *)
Definition replaceNode (old : loc) (new : Node) : loc := (new, snd old).

(** [rotateLeft(node)], statement by statement:
    - [right := node.right] is the subtree [Nd rc b rk rvs d];
    - [replaceNode(node, right)] hangs [right] in the slot of [node];
    - [node.right = right.left], with [right.left.parent = node]: [node]
      keeps [a] and gets [b];
    - [right.left = node; node.parent = right]: the path of [node] now
      starts with [right], whose right child is still [d].
    The result is the place where [node] is afterwards.  With
    [right == nil], [right.left] panics. *)
Definition rotateLeft (node : loc) : option loc :=
  match fst node with
  | Nd c a k vs (Nd rc b rk rvs d as right) =>
      let slot := replaceNode node right in
      Some (Nd c a k vs b, LeftOf rc rk rvs d :: snd slot)
  | _ => None
  end.

Definition rotateRight (node : loc) : option loc :=
  match fst node with
  | Nd c (Nd lc a lk lvs b as left) k vs d =>
      let slot := replaceNode node left in
      Some (Nd c b k vs d, RightOf lc a lk lvs :: snd slot)
  | _ => None
  end.

(** [tree.rotateLeft(node.parent)] followed from [node]: a node that was the
    left child stays the left child of its parent, which went down; a node
    that was the right child has gone up and is now the parent of its former
    parent. *)
Definition rotateLeftParent (node : loc) : option loc :=
  s <- sideOf node ;;
  p <- parent node ;;
  p' <- rotateLeft p ;;
  match s with
  | L => leftChild p'
  | R => parent p'
  end.

Definition rotateRightParent (node : loc) : option loc :=
  s <- sideOf node ;;
  p <- parent node ;;
  p' <- rotateRight p ;;
  match s with
  | R => rightChild p'
  | L => parent p'
  end.

(** [tree.rotateRight(sibling)] and [tree.rotateLeft(sibling)] followed from
    [node]: the sibling goes down below its former child, which becomes the
    sibling. *)
Definition rotateRightSibling (node : loc) : option loc :=
  s <- siblingLoc node ;;
  s' <- rotateRight s ;;
  top <- parent s' ;;
  siblingLoc top.

Definition rotateLeftSibling (node : loc) : option loc :=
  s <- siblingLoc node ;;
  s' <- rotateLeft s ;;
  top <- parent s' ;;
  siblingLoc top.

(** ** Insertion cases *)

(** [insertCase5]; the result is the tree afterwards.  With a nil
    grandparent, [grandparent.color = red] panics. *)
Definition insertCase5 (node : loc) : option Node :=
  node <- atParent (setColor black) node ;;
  grandparent <- grandparent node ;;
  grandparent <- setColor red grandparent ;;
  sn <- sideOf node ;;
  p <- parent node ;;
  sp <- sideOf p ;;
  match sn, sp with
  | L, L => g' <- rotateRight grandparent ;; Some (rootOf g')
  | R, R => g' <- rotateLeft grandparent ;; Some (rootOf g')
  | _, _ => Some (rootOf grandparent)
  end.

(** [insertCase4]: with a nil grandparent, [grandparent.left] or
    [grandparent.right] panics.  After [rotateLeft(node.parent)] the node
    is the parent of its former parent, and [node = node.left] is that former
    parent. *)
Definition insertCase4 (node : loc) : option Node :=
  _ <- grandparent node ;;
  sn <- sideOf node ;;
  p <- parent node ;;
  sp <- sideOf p ;;
  node <- match sn, sp with
          | R, L => p' <- rotateLeft p ;; node <- parent p' ;; leftChild node
          | L, R => p' <- rotateRight p ;; node <- parent p' ;; rightChild node
          | _, _ => Some node
          end ;;
  insertCase5 node.

(** [insertCase1], [insertCase2] and [insertCase3] call each other; [fuel]
    bounds the depth of the calls.  The result is the tree afterwards. *)
Fixpoint insertCase1 (fuel : nat) (node : loc) {struct fuel} : option Node :=
  match fuel with
  | O => None
  | S fuel =>
      match parent node with
      | None => node <- setColor black node ;; Some (rootOf node)
      | Some _ => insertCase2 fuel node
      end
  end
with insertCase2 (fuel : nat) (node : loc) {struct fuel} : option Node :=
  match fuel with
  | O => None
  | S fuel =>
      if isBlack (colorOf (parent node)) then Some (rootOf node)
      else insertCase3 fuel node
  end
with insertCase3 (fuel : nat) (node : loc) {struct fuel} : option Node :=
  match fuel with
  | O => None
  | S fuel =>
      if isRed (nodeColor (uncle node)) then
        p <- parent node ;;
        p <- setColor black p ;;
        p <- atSibling (setColor black) p ;;
        g <- parent p ;;
        g <- setColor red g ;;
        insertCase1 fuel g
      else insertCase4 node
  end.

(** Calls of the chain case1, case2, case3 needed from a node [d] levels
    below the root: each round takes three calls and moves two levels up. *)
Definition insertFuel (node : loc) : nat := 3 * List.length (snd node) + 3.

(** ** Put *)

(** Whether some value of the list has the identity of [value]: the loop
    [for _, v := range node.values] of [Put]. *)
Definition duplicated (value : V) (values : list V) : bool :=
  existsb (fun v => String.eqb (ID v) (ID value)) values.

(** How the descent of [Put] ends. *)
Inductive PutWalk :=
| Duplicated
| Appended (node : loc)
| Inserted (insertedNode : loc).

(** The loop of [Put] from [node], which hangs at [p]. *)
Fixpoint PutLoop (key : K) (value : V) (node : Node) (p : path)
  : option PutWalk :=
  match node with
  | Nil => None
  | Nd c l k vs r =>
      let compare := comparator key k in
      if (compare =? 0)%Z then
        if duplicated value vs then Some Duplicated
        else Some (Appended (Nd c l k (vs ++ [value]) r, p))
      else if (compare <? 0)%Z then
        match l with
        | Nil =>
            Some (Inserted (Nd red Nil key [value] Nil, LeftOf c k vs r :: p))
        | Nd _ _ _ _ _ => PutLoop key value l (LeftOf c k vs r :: p)
        end
      else
        match r with
        | Nil =>
            Some (Inserted (Nd red Nil key [value] Nil, RightOf c l k vs :: p))
        | Nd _ _ _ _ _ => PutLoop key value r (RightOf c l k vs :: p)
        end
  end.

(** [Tree.Put]; a nil key or value is [None]. *)
Definition Put (key : option K) (value : option V) (tree : Tree)
  : option Tree :=
  match key, value with
  | Some key, Some value =>
      match root tree with
      | Nil =>
          let insertedNode : loc := (Nd red Nil key [value] Nil, []) in
          r <- insertCase1 (insertFuel insertedNode) insertedNode ;;
          Some (mkTree r (size tree + 1))
      | Nd _ _ _ _ _ =>
          w <- PutLoop key value (root tree) [] ;;
          match w with
          | Duplicated => Some tree
          | Appended node => Some (mkTree (rootOf node) (size tree + 1))
          | Inserted insertedNode =>
              r <- insertCase1 (insertFuel insertedNode) insertedNode ;;
              Some (mkTree r (size tree + 1))
          end
      end
  | _, _ => Some tree
  end.

(** ** Lookup *)

Fixpoint lookupFrom (key : K) (node : Node) (p : path) : option loc :=
  match node with
  | Nil => None
  | Nd c l k vs r =>
      let compare := comparator key k in
      if (compare =? 0)%Z then Some (node, p)
      else if (compare <? 0)%Z then lookupFrom key l (LeftOf c k vs r :: p)
      else lookupFrom key r (RightOf c l k vs :: p)
  end.

(** [tree.lookup]: the node, or [None] for nil. *)
Definition lookup (key : K) (tree : Tree) : option loc :=
  lookupFrom key (root tree) [].

Definition valuesOf (n : Node) : list V :=
  match n with Nil => [] | Nd _ _ _ vs _ => vs end.

(** [Tree.Get]: the nil slice is the empty list. *)
Definition Get (key : option K) (tree : Tree) : list V * bool :=
  match key with
  | None => ([], false)
  | Some key =>
      match lookup key tree with
      | Some node => (valuesOf (fst node), true)
      | None => ([], false)
      end
  end.

(** ** Deletion cases

    Every case returns the place of [node] in the tree afterwards, and
    whether the node has been lifted above its parent.  That happens in the
    second branch of [deleteCase6] when the node is a left child:
    [rotateRight(node.parent)] then takes the node up, its parent becomes
    its right child and its former right child the left child of the
    parent. *)

Definition deleteCase6 (node : loc) : option (loc * bool) :=
  node <- atSibling (setColor (colorOf (parent node))) node ;;
  node <- atParent (setColor black) node ;;
  s <- sideOf node ;;
  sr <- rightOf (sibling node) ;;
  sl <- leftOf (sibling node) ;;
  match s, nodeColor sr, nodeColor sl with
  | L, red, _ =>
      node <- atSibling (atRight (setColor black)) node ;;
      node <- rotateLeftParent node ;;
      Some (node, false)
  | _, _, red =>
      node <- atSibling (atLeft (setColor black)) node ;;
      node <- rotateRightParent node ;;
      Some (node, match s with L => true | R => false end)
  | _, _, _ => Some (node, false)
  end.

Definition deleteCase5 (node : loc) : option (loc * bool) :=
  s <- sideOf node ;;
  let sibling := sibling node in
  c1 <- andAlso (match s with L => true | R => false end)
          (andAlso (isBlack (nodeColor sibling))
             (sl <- leftOf sibling ;;
              andAlso (isRed (nodeColor sl))
                (sr <- rightOf sibling ;; Some (isBlack (nodeColor sr))))) ;;
  if c1 then
    node <- atSibling (setColor red) node ;;
    node <- atSibling (atLeft (setColor black)) node ;;
    node <- rotateRightSibling node ;;
    deleteCase6 node
  else
    c2 <- andAlso (match s with L => false | R => true end)
            (andAlso (isBlack (nodeColor sibling))
               (sr <- rightOf sibling ;;
                andAlso (isRed (nodeColor sr))
                  (sl <- leftOf sibling ;; Some (isBlack (nodeColor sl))))) ;;
    if c2 then
      node <- atSibling (setColor red) node ;;
      node <- atSibling (atRight (setColor black)) node ;;
      node <- rotateLeftSibling node ;;
      deleteCase6 node
    else deleteCase6 node.

Definition deleteCase4 (node : loc) : option (loc * bool) :=
  let sibling := sibling node in
  c <- andAlso (isRed (colorOf (parent node)))
         (andAlso (isBlack (nodeColor sibling))
            (sl <- leftOf sibling ;;
             andAlso (isBlack (nodeColor sl))
               (sr <- rightOf sibling ;; Some (isBlack (nodeColor sr))))) ;;
  if c then
    node <- atSibling (setColor red) node ;;
    node <- atParent (setColor black) node ;;
    Some (node, false)
  else deleteCase5 node.

(** The child on side [s] of a node after a deletion case has run on that
    node: where it was, or, when the node has been lifted and the child was
    the right one, the left child of the new right child. *)
Definition childAfter (s : side) (lifted : bool) (node : loc) : option loc :=
  match s, lifted with
  | R, true => r <- rightChild node ;; leftChild r
  | _, _ => child s node
  end.

(** [deleteCase1], [deleteCase2] and [deleteCase3] call each other; [fuel]
    bounds the depth of the calls.  After [deleteCase1(node.parent)] the
    node is found again from its parent. *)
Fixpoint deleteCase1 (fuel : nat) (node : loc) {struct fuel}
  : option (loc * bool) :=
  match fuel with
  | O => None
  | S fuel =>
      match parent node with
      | None => Some (node, false)
      | Some _ => deleteCase2 fuel node
      end
  end
with deleteCase2 (fuel : nat) (node : loc) {struct fuel}
  : option (loc * bool) :=
  match fuel with
  | O => None
  | S fuel =>
      node <- (if isRed (nodeColor (sibling node)) then
                 node <- atParent (setColor red) node ;;
                 node <- atSibling (setColor black) node ;;
                 s <- sideOf node ;;
                 match s with
                 | L => rotateLeftParent node
                 | R => rotateRightParent node
                 end
               else Some node) ;;
      deleteCase3 fuel node
  end
with deleteCase3 (fuel : nat) (node : loc) {struct fuel}
  : option (loc * bool) :=
  match fuel with
  | O => None
  | S fuel =>
      let sibling := sibling node in
      c <- andAlso (isBlack (colorOf (parent node)))
             (andAlso (isBlack (nodeColor sibling))
                (sl <- leftOf sibling ;;
                 andAlso (isBlack (nodeColor sl))
                   (sr <- rightOf sibling ;; Some (isBlack (nodeColor sr))))) ;;
      if c then
        node <- atSibling (setColor red) node ;;
        s <- sideOf node ;;
        p <- parent node ;;
        r <- deleteCase1 fuel p ;;
        node <- childAfter s (snd r) (fst r) ;;
        Some (node, false)
      else deleteCase4 node
  end.

(** Calls of the chain case1, case2, case3 needed from a node [d] levels
    below the root: each round takes three calls and moves one level up. *)
Definition deleteFuel (node : loc) : nat := 3 * List.length (snd node) + 3.

(** ** Remove *)

(** [node.maximumNode()] from the node hanging at [p]. *)
Fixpoint maximumNode (node : Node) (p : path) : loc :=
  match node with
  | Nil => (Nil, p)
  | Nd c l k vs r =>
      match r with
      | Nil => (node, p)
      | Nd _ _ _ _ _ => maximumNode r (RightOf c l k vs :: p)
      end
  end.

Definition isNil (n : Node) : bool :=
  match n with Nil => true | Nd _ _ _ _ _ => false end.

(** [node.key = key; node.values = values]. *)
Definition setEntry (key : K) (values : list V) (node : loc) : option loc :=
  match fst node with
  | Nil => None
  | Nd c l _ _ r => Some (Nd c l key values r, snd node)
  end.

(** [Remove] after [tree.size -= len(node.values)], first half: with two
    children the entry of the predecessor is copied into the node and [node]
    becomes the predecessor, found again below the rewritten node. *)
Definition predecessorSwap (node : loc) : option loc :=
  l <- leftOf (fst node) ;;
  r <- rightOf (fst node) ;;
  if negb (isNil l) && negb (isNil r) then
    lc <- leftChild node ;;
    match fst (maximumNode (fst lc) (snd lc)) with
    | Nil => None
    | Nd _ _ pk pvs _ =>
        node <- setEntry pk pvs node ;;
        lc <- leftChild node ;;
        Some (maximumNode (fst lc) (snd lc))
    end
  else Some node.

(** Second half: a node with at most one child is unlinked,
    [replaceNode(node, child)]; the result is [tree.root] afterwards. *)
Definition spliceOut (node : loc) : option Node :=
  l <- leftOf (fst node) ;;
  r <- rightOf (fst node) ;;
  if isNil l || isNil r then
    let child := if isNil r then l else r in
    node <- (if isBlack (nodeColor (fst node)) then
               node <- setColor (nodeColor child) node ;;
               r <- deleteCase1 (deleteFuel node) node ;;
               Some (fst r)
             else Some node) ;;
    let slot := replaceNode node child in
    match parent node, child with
    | None, Nd _ cl ck cvs cr => Some (plug (Nd black cl ck cvs cr) (snd slot))
    | _, _ => Some (rootOf slot)
    end
  else Some (rootOf node).

Definition removeNode (node : loc) : option Node :=
  node <- predecessorSwap node ;;
  spliceOut node.

(** [Tree.Remove]. *)
Definition Remove (key : option K) (tree : Tree) : option Tree :=
  match key with
  | None => Some tree
  | Some key =>
      match lookup key tree with
      | None => Some tree
      | Some node =>
          let size' := (size tree - Z.of_nat (List.length (valuesOf (fst node))))%Z in
          r <- removeNode node ;;
          Some (mkTree r size')
      end
  end.

(** ** The other operations of the engine *)

(** [NewWith(comparator)] with a comparator. *)
Definition NewWith : Tree := mkTree Nil 0.

Definition Empty (tree : Tree) : bool := (size tree =? 0)%Z.

Definition Size (tree : Tree) : Z := size tree.

(** The loop of [Left]: [parent] trails [current]. *)
Fixpoint leftmost (parent current : Node) : Node :=
  match current with
  | Nil => parent
  | Nd _ l _ _ _ => leftmost current l
  end.

Fixpoint rightmost (parent current : Node) : Node :=
  match current with
  | Nil => parent
  | Nd _ _ _ _ r => rightmost current r
  end.

(** [Tree.Left] and [Tree.Right]: the values of the outermost node. *)
Definition Left (tree : Tree) : list V := valuesOf (leftmost Nil (root tree)).

Definition Right (tree : Tree) : list V := valuesOf (rightmost Nil (root tree)).

(** The loop of [Floor] with its variables [floor] and [found]. *)
Fixpoint floorFrom (key : K) (node : Node) (floor : list V) (found : bool)
  : list V * bool :=
  match node with
  | Nil => if found then (floor, true) else ([], false)
  | Nd _ l k vs r =>
      let compare := comparator key k in
      if (compare =? 0)%Z then (vs, true)
      else if (compare <? 0)%Z then floorFrom key l floor found
      else floorFrom key r vs true
  end.

Definition Floor (key : K) (tree : Tree) : list V * bool :=
  floorFrom key (root tree) [] false.

Fixpoint ceilingFrom (key : K) (node : Node) (ceiling : list V) (found : bool)
  : list V * bool :=
  match node with
  | Nil => if found then (ceiling, true) else ([], false)
  | Nd _ l k vs r =>
      let compare := comparator key k in
      if (compare =? 0)%Z then (vs, true)
      else if (compare <? 0)%Z then ceilingFrom key l vs true
      else ceilingFrom key r ceiling found
  end.

Definition Ceiling (key : K) (tree : Tree) : list V * bool :=
  ceilingFrom key (root tree) [] false.

Definition Clear (tree : Tree) : Tree := mkTree Nil 0.

(** * Invariants *)

(** The in-order walk of the tree: the keys with their value lists, from the
    leftmost node to the rightmost. *)
Fixpoint entries (n : Node) : list (K * list V) :=
  match n with
  | Nil => []
  | Nd _ l k vs r => entries l ++ (k, vs) :: entries r
  end.

Definition keys (n : Node) : list K := map fst (entries n).

(** The entries to the left and to the right of the subtree at a path. *)
Fixpoint before (p : path) : list (K * list V) :=
  match p with
  | [] => []
  | LeftOf _ _ _ _ :: p' => before p'
  | RightOf _ l k vs :: p' => before p' ++ entries l ++ [(k, vs)]
  end.

Fixpoint after (p : path) : list (K * list V) :=
  match p with
  | [] => []
  | LeftOf _ k vs r :: p' => (k, vs) :: entries r ++ after p'
  | RightOf _ _ _ _ :: p' => after p'
  end.

(** No red node has a red child. *)
Fixpoint noRedRed (n : Node) : bool :=
  match n with
  | Nil => true
  | Nd c l _ _ r =>
      (isBlack c || (isBlack (nodeColor l) && isBlack (nodeColor r)))
      && noRedRed l && noRedRed r
  end.

(** The number of black nodes on every path from [n] down to a nil leaf, one
    number per path. *)
Fixpoint blackCounts (n : Node) : list nat :=
  match n with
  | Nil => [0]
  | Nd c l _ _ r =>
      map (fun b => match c with black => S b | red => b end)
        (blackCounts l ++ blackCounts r)
  end.

Definition allEqual (l : list nat) : bool :=
  match l with
  | [] => true
  | x :: l' => forallb (Nat.eqb x) l'
  end.

(** From every node, all paths down to a nil leaf pass the same number of
    black nodes. *)
Fixpoint sameBlackCount (n : Node) : bool :=
  match n with
  | Nil => true
  | Nd _ l _ _ r =>
      allEqual (blackCounts n) && sameBlackCount l && sameBlackCount r
  end.

(** The red-black coloring of a whole tree. *)
Definition RedBlack (n : Node) : bool :=
  isBlack (nodeColor n) && noRedRed n && sameBlackCount n.

(** A subtree without red-red edge whose paths all count [h] black nodes. *)
Fixpoint rbt (h : nat) (n : Node) : Prop :=
  match n with
  | Nil => h = 0
  | Nd red l _ _ r =>
      nodeColor l = black /\ nodeColor r = black /\ rbt h l /\ rbt h r
  | Nd black l _ _ r =>
      match h with
      | O => False
      | S h' => rbt h' l /\ rbt h' r
      end
  end.

Definition frameColor (f : frame) : color :=
  match f with LeftOf c _ _ _ => c | RightOf c _ _ _ => c end.

Definition frameSibling (f : frame) : Node :=
  match f with LeftOf _ _ _ r => r | RightOf _ l _ _ => l end.

(** The parent at the head of the path is black; the root has one. *)
Definition topBlack (p : path) : Prop :=
  match p with
  | [] => False
  | f :: _ => frameColor f = black
  end.

(** What is around a subtree of black height [h]: every sibling on the way up
    fits, a red ancestor has a black sibling below it and a black parent. *)
Fixpoint pathOk (h : nat) (p : path) : Prop :=
  match p with
  | [] => True
  | f :: p' =>
      rbt h (frameSibling f) /\
      match frameColor f with
      | black => pathOk (S h) p'
      | red => nodeColor (frameSibling f) = black /\ topBlack p' /\ pathOk h p'
      end
  end.

(** The subtree itself fits below the head of the path. *)
Definition fits (n : Node) (p : path) : Prop :=
  match p with
  | [] => nodeColor n = black
  | f :: _ => frameColor f = red -> nodeColor n = black
  end.

(** Every key in the left subtree of a node compares less than the key of
    the node, every key in its right subtree greater. *)
Fixpoint BST (n : Node) : bool :=
  match n with
  | Nil => true
  | Nd _ l k _ r =>
      forallb (fun x => (comparator x k <? 0)%Z) (keys l)
      && forallb (fun x => (comparator x k >? 0)%Z) (keys r)
      && BST l && BST r
  end.

(** Strictly ascending in the order of the comparator. *)
Definition ascending (ks : list K) : Prop :=
  StronglySorted (fun a b => (comparator a b < 0)%Z) ks.

Definition descending (ks : list K) : Prop :=
  StronglySorted (fun a b => (comparator a b > 0)%Z) ks.

(** The sum of the lengths of the value lists of all nodes. *)
Definition valueCount (es : list (K * list V)) : Z :=
  fold_right (fun e acc => (Z.of_nat (List.length (snd e)) + acc)%Z) 0%Z es.

Definition totalValues (n : Node) : Z := valueCount (entries n).

(** No node has an empty value list. *)
Definition noEmptyList (es : list (K * list V)) : bool :=
  forallb (fun e => negb (Nat.eqb (List.length (snd e)) 0)) es.

Definition nonEmptyValues (n : Node) : bool := noEmptyList (entries n).

(** What the engine keeps whatever the comparator is: the coloring, the
    count of values, no empty value list. *)
Definition Consistent (tree : Tree) : bool :=
  RedBlack (root tree)
  && (size tree =? totalValues (root tree))%Z
  && nonEmptyValues (root tree).

(** The comparisons that lead the descent for [key] along a path: left where
    the key is smaller, right where it is larger. *)
Fixpoint searched (key : K) (p : path) : Prop :=
  match p with
  | [] => True
  | LeftOf _ k _ _ :: p' => (comparator key k < 0)%Z /\ searched key p'
  | RightOf _ _ k _ :: p' => (comparator key k > 0)%Z /\ searched key p'
  end.

(** The parent at the head of the path is black, or the path is empty. *)
Definition blackTop (p : path) : Prop :=
  match p with
  | [] => True
  | f :: _ => frameColor f = black
  end.

(** What a deletion case makes of the path of the node: the node was one
    black node short of [S h]; afterwards the path fits a subtree of black
    height [h], below a black parent, and the walk in order is unchanged. *)
Definition repaired (h : nat) (p p' : path) : Prop :=
  pathOk h p' /\ blackTop p' /\ before p' = before p /\ after p' = after p.

(** * The operations of [internal/pkg] that the wrapper calls *)

(** Modelled from the spec: the engine of [internal/pkg], whose [Left] and
    [Right] return the key with the values, is missing; section 4.1, "Min /
    Max: descend all-left / all-right from root; return the terminal node's
    value list (empty/absent result if tree is empty)", and section 6,
    "Min()/Max() -> (key, values)".  The descent is the loop of [Left] and
    [Right] above; [None] is the pair of nils. *)
Definition LeftEntry (tree : Tree) : option (K * list V) :=
  match leftmost Nil (root tree) with
  | Nil => None
  | Nd _ _ k vs _ => Some (k, vs)
  end.

Definition RightEntry (tree : Tree) : option (K * list V) :=
  match rightmost Nil (root tree) with
  | Nil => None
  | Nd _ _ k vs _ => Some (k, vs)
  end.

(** Modelled from the spec: [PopLeft] and [PopRight] of [internal/pkg] are
    missing; section 4.1, "Pop variants additionally remove that node's key
    afterward", and section 6, "PopMin()/PopMax(): same, then remove that
    key". *)
Definition PopLeft (tree : Tree) : option (option (K * list V) * Tree) :=
  match LeftEntry tree with
  | None => Some (None, tree)
  | Some (key, values) =>
      tree' <- Remove (Some key) tree ;;
      Some (Some (key, values), tree')
  end.

Definition PopRight (tree : Tree) : option (option (K * list V) * Tree) :=
  match RightEntry tree with
  | None => Some (None, tree)
  | Some (key, values) =>
      tree' <- Remove (Some key) tree ;;
      Some (Some (key, values), tree')
  end.

(** * The wrapper [tree]

    Every method of the wrapper takes the lock and calls the engine; [Put],
    [Get] and [Remove] repeat the nil checks of the engine.  One caller at a
    time is modelled, so the lock is left out and [Put], [Get], [Remove],
    [Empty] and [Size] of the wrapper are those of the engine. *)

Definition Min (tree : Tree) : option (K * list V) := LeftEntry tree.

Definition Max (tree : Tree) : option (K * list V) := RightEntry tree.

Definition PopMin (tree : Tree) : option (option (K * list V) * Tree) :=
  PopLeft tree.

Definition PopMax (tree : Tree) : option (option (K * list V) * Tree) :=
  PopRight tree.

(** * Callers *)

(** A call of a mutating operation. *)
Inductive Call :=
| CallPut (key : option K) (value : option V)
| CallRemove (key : option K)
| CallClear
| CallPopMin
| CallPopMax.

Definition call (c : Call) (tree : Tree) : option Tree :=
  match c with
  | CallPut key value => Put key value tree
  | CallRemove key => Remove key tree
  | CallClear => Some (Clear tree)
  | CallPopMin => r <- PopMin tree ;; Some (snd r)
  | CallPopMax => r <- PopMax tree ;; Some (snd r)
  end.

Fixpoint run (cs : list Call) (tree : Tree) : option Tree :=
  match cs with
  | [] => Some tree
  | c :: cs' => tree' <- call c tree ;; run cs' tree'
  end.

(** A sequence of [Put]. *)
Fixpoint putAll (puts : list (option K * option V)) (tree : Tree)
  : option Tree :=
  match puts with
  | [] => Some tree
  | (key, value) :: puts' => tree' <- Put key value tree ;; putAll puts' tree'
  end.

(** The keys a sequence of [Put] inserts: those given with a value. *)
Fixpoint insertedKeys (puts : list (option K * option V)) : list K :=
  match puts with
  | [] => []
  | (Some key, Some _) :: puts' => key :: insertedKeys puts'
  | _ :: puts' => insertedKeys puts'
  end.

(** [for !tree.Empty() { tree.PopMin() }], collecting what the pops return;
    [fuel] bounds the number of rounds. *)
Fixpoint drainMin (fuel : nat) (tree : Tree)
  : option (list (option (K * list V)) * Tree) :=
  if Empty tree then Some ([], tree)
  else
    match fuel with
    | O => None
    | S fuel' =>
        r <- PopMin tree ;;
        d <- drainMin fuel' (snd r) ;;
        Some (fst r :: fst d, snd d)
    end.

Fixpoint drainMax (fuel : nat) (tree : Tree)
  : option (list (option (K * list V)) * Tree) :=
  if Empty tree then Some ([], tree)
  else
    match fuel with
    | O => None
    | S fuel' =>
        r <- PopMax tree ;;
        d <- drainMax fuel' (snd r) ;;
        Some (fst r :: fst d, snd d)
    end.

(** * What the operations do to the walk in order *)

(** The effect of [Put] with a key and a value on a colored tree. *)
Definition putEffect (key : K) (value : V) (t t' : Tree) : Prop :=
  (exists xs k vs ys,
      entries (root t) = xs ++ (k, vs) :: ys /\
      comparator key k = 0%Z /\ Get (Some key) t = (vs, true) /\
      ((duplicated value vs = true /\ t' = t) \/
       (duplicated value vs = false /\
        entries (root t') = xs ++ (k, vs ++ [value]) :: ys /\
        Get (Some key) t' = (vs ++ [value], true) /\
        size t' = (size t + 1)%Z)))
  \/
  (exists q,
      Get (Some key) t = ([], false) /\ searched key q /\
      entries (root t) = before q ++ after q /\
      entries (root t') = before q ++ (key, [value]) :: after q /\
      size t' = (size t + 1)%Z).

(** The effect of [Remove] with a key on a colored tree. *)
Definition removeEffect (key : K) (t t' : Tree) : Prop :=
  (Get (Some key) t = ([], false) /\ t' = t)
  \/
  (exists xs k vs ys,
      comparator key k = 0%Z /\ Get (Some key) t = (vs, true) /\
      entries (root t) = xs ++ (k, vs) :: ys /\
      entries (root t') = xs ++ ys /\
      size t' = (size t - Z.of_nat (List.length vs))%Z).

(** * The shape of the tree and its rendering *)

(** The number of nodes on the longest way from a node down to a nil leaf;
    a descent such as the loop of [lookup] visits no more nodes. *)
Fixpoint height (n : Node) : nat :=
  match n with
  | Nil => 0
  | Nd _ l _ _ r => S (Nat.max (height l) (height r))
  end.

(** The nodes in order, each with its key, its values and its color. *)
Fixpoint cells (n : Node) : list (K * list V * color) :=
  match n with
  | Nil => []
  | Nd c l k vs r => cells l ++ (k, vs, c) :: cells r
  end.

Section Rendering.

(** [fmt.Sprintf("%+v", key)]: how a key prints is up to its type. *)
Variable format : K -> string.

Definition newline : string := String "010"%char EmptyString.

(** [Node.String]; [node.key] of nil panics. *)
Definition NodeString (node : Node) : option string :=
  match node with
  | Nil => None
  | Nd _ _ k _ _ => Some (format k)
  end.

(** [output(node, prefix, isTail, str)]: [str] is what [*str] holds when the
    call begins, the result what it holds when the call returns.  The right
    subtree is written first, then the line of the node, then the left
    subtree; [node.right] of nil panics. *)
Fixpoint output (node : Node) (prefix : string) (isTail : bool) (str : string)
  : option string :=
  match node with
  | Nil => None
  | Nd _ l _ _ r =>
      str <- match r with
             | Nil => Some str
             | Nd _ _ _ _ _ =>
                 let newPrefix :=
                   (prefix ++ if isTail then "│   " else "    ")%string in
                 output r newPrefix false str
             end ;;
      let str := (str ++ prefix)%string in
      let str := (str ++ if isTail then "└── " else "┌── ")%string in
      s <- NodeString node ;;
      let str := (str ++ (s ++ newline))%string in
      match l with
      | Nil => Some str
      | Nd _ _ _ _ _ =>
          let newPrefix :=
            (prefix ++ if isTail then "    " else "│   ")%string in
          output l newPrefix true str
      end
  end.

(** [Tree.String], under the name [TreeString] beside the strings of Rocq:
    the header, and the nodes when [Empty] says there are some. *)
Definition TreeString (tree : Tree) : option string :=
  let str := ("RedBlackTree" ++ newline)%string in
  if negb (Empty tree) then output (root tree) EmptyString true str
  else Some str.

(** [Topology] of the wrapper. *)
Definition Topology (tree : Tree) : option string := TreeString tree.

End Rendering.

(** Lines one after the other. *)
Definition joined (lines : list string) : string :=
  fold_right String.append EmptyString lines.

(** * What a sequence of [Put] leaves under a key *)

(** The value list [Put] makes of [values] in the node of its key. *)
Definition addValue (value : V) (values : list V) : list V :=
  if duplicated value values then values else values ++ [value].

(** The value list of [key] after a call of [Put], [Remove] or [Clear], from
    the list [values] before it: a [Put] with a key that compares equal adds
    its value, a [Remove] with such a key and [Clear] leave nothing. *)
Definition valuesCall (key : K) (c : Call) (values : list V) : list V :=
  match c with
  | CallPut (Some k) (Some v) =>
      if (comparator k key =? 0)%Z then addValue v values else values
  | CallRemove (Some k) =>
      if (comparator k key =? 0)%Z then [] else values
  | CallClear => []
  | _ => values
  end.

Definition valuesRun (key : K) (cs : list Call) (values : list V) : list V :=
  fold_left (fun vs c => valuesCall key c vs) cs values.

(** The calls that name their key: all but the pops. *)
Definition popFree (c : Call) : bool :=
  match c with
  | CallPopMin | CallPopMax => false
  | _ => true
  end.

(** * Proofs *)

(** ** Lists *)

Lemma allEqual_spec (x : nat) (l : list nat) :
  allEqual (x :: l) = true <-> (forall y, In y l -> y = x).
Proof.
  simpl. rewrite forallb_forall. split; intros H y Hy.
  - symmetry. apply Nat.eqb_eq. auto.
  - apply Nat.eqb_eq. symmetry. auto.
Qed.

(** ** The walk in order and the paths *)

Lemma entries_plug (p : path) : forall n,
  entries (plug n p) = before p ++ entries n ++ after p.
Proof.
  induction p as [|[c k vs r|c l k vs] p IH]; intros n; simpl.
  - now rewrite app_nil_r.
  - rewrite IH. simpl. now rewrite <- !app_assoc.
  - rewrite IH. simpl. now rewrite <- !app_assoc.
Qed.

(** ** The coloring as counted paths and as a black height *)

Lemma blackCounts_not_nil (n : Node) : blackCounts n <> [].
Proof.
  induction n as [|c l IHl k vs r IHr]; simpl; [discriminate|].
  destruct (blackCounts l); [contradiction|discriminate].
Qed.

Lemma rbt_blackCounts (n : Node) : forall h,
  rbt h n ->
  noRedRed n = true /\ sameBlackCount n = true /\
  (forall x, In x (blackCounts n) -> x = h).
Proof.
  induction n as [|c l IHl k vs r IHr]; intros h H.
  - simpl in *. subst. repeat split. intros x [<-|[]]. reflexivity.
  - assert (Hall : forall h' x, (forall y, In y (blackCounts l) -> y = h') ->
              (forall y, In y (blackCounts r) -> y = h') ->
              In x (blackCounts (Nd c l k vs r)) ->
              x = match c with black => S h' | red => h' end).
    { intros h' x Hl Hr Hx. simpl in Hx. apply in_map_iff in Hx.
      destruct Hx as (y & <- & Hy). apply in_app_or in Hy.
      destruct Hy as [Hy|Hy]; [apply Hl in Hy|apply Hr in Hy]; subst;
        reflexivity. }
    assert (Heq : forall h', (forall y, In y (blackCounts l) -> y = h') ->
              (forall y, In y (blackCounts r) -> y = h') ->
              allEqual (blackCounts (Nd c l k vs r)) = true).
    { intros h' Hl Hr.
      destruct (blackCounts (Nd c l k vs r)) as [|x xs] eqn:E; [reflexivity|].
      apply allEqual_spec. intros y Hy.
      rewrite (Hall h' y Hl Hr), (Hall h' x Hl Hr); rewrite ?E; simpl; auto. }
    destruct c; simpl in H.
    + destruct h as [|h]; [contradiction|]. destruct H as (Hl & Hr).
      apply IHl in Hl. apply IHr in Hr.
      destruct Hl as (Hl1 & Hl2 & Hl3), Hr as (Hr1 & Hr2 & Hr3).
      split; [|split].
      * simpl. now rewrite Hl1, Hr1.
      * change (allEqual (blackCounts (Nd black l k vs r))
                && sameBlackCount l && sameBlackCount r = true).
        now rewrite (Heq h), Hl2, Hr2.
      * intros x Hx. apply (Hall h x); auto.
    + destruct H as (Cl & Cr & Hl & Hr).
      apply IHl in Hl. apply IHr in Hr.
      destruct Hl as (Hl1 & Hl2 & Hl3), Hr as (Hr1 & Hr2 & Hr3).
      split; [|split].
      * simpl. now rewrite Cl, Cr, Hl1, Hr1.
      * change (allEqual (blackCounts (Nd red l k vs r))
                && sameBlackCount l && sameBlackCount r = true).
        now rewrite (Heq h), Hl2, Hr2.
      * intros x Hx. apply (Hall h x); auto.
Qed.

Lemma blackCounts_rbt (n : Node) :
  noRedRed n = true -> sameBlackCount n = true ->
  exists h, rbt h n /\ (forall x, In x (blackCounts n) -> x = h).
Proof.
  induction n as [|c l IHl k vs r IHr]; intros Hn Hs.
  - exists 0. split; [reflexivity|]. intros x [<-|[]]. reflexivity.
  - change (allEqual (blackCounts (Nd c l k vs r))
            && sameBlackCount l && sameBlackCount r = true) in Hs.
    simpl in Hn.
    apply andb_prop in Hs. destruct Hs as (Hs & Hsr).
    apply andb_prop in Hs. destruct Hs as (Hall & Hsl).
    apply andb_prop in Hn. destruct Hn as (Hn & Hnr).
    apply andb_prop in Hn. destruct Hn as (Hc & Hnl).
    destruct (IHl Hnl Hsl) as (hl & Rl & Cl).
    destruct (IHr Hnr Hsr) as (hr & Rr & Cr).
    assert (hl = hr) as <-.
    { simpl in Hall.
      destruct (blackCounts l) as [|a la] eqn:El;
        [now apply blackCounts_not_nil in El|].
      destruct (blackCounts r) as [|b lb] eqn:Er;
        [now apply blackCounts_not_nil in Er|].
      simpl in Hall. rewrite forallb_forall in Hall.
      specialize (Hall (match c with black => S b | red => b end)).
      rewrite Nat.eqb_eq in Hall.
      assert (a = hl) by (apply Cl; simpl; auto).
      assert (b = hr) by (apply Cr; simpl; auto). subst a b.
      assert (E : match c with black => S hl | red => hl end
                  = match c with black => S hr | red => hr end).
      { apply Hall. rewrite map_app. apply in_or_app. right. simpl. auto. }
      destruct c; congruence. }
    exists (match c with black => S hl | red => hl end). split.
    + destruct c; simpl; auto.
      simpl in Hc. apply andb_prop in Hc. destruct Hc as (Hc1 & Hc2).
      repeat split; auto.
      * destruct (nodeColor l); [reflexivity|discriminate].
      * destruct (nodeColor r); [reflexivity|discriminate].
    + intros x Hx. simpl in Hx. apply in_map_iff in Hx.
      destruct Hx as (y & <- & Hy). apply in_app_or in Hy.
      destruct Hy as [Hy|Hy]; [apply Cl in Hy|apply Cr in Hy]; now subst.
Qed.

Lemma RedBlack_rbt (n : Node) :
  RedBlack n = true <-> nodeColor n = black /\ exists h, rbt h n.
Proof.
  unfold RedBlack. split.
  - intros H. apply andb_prop in H. destruct H as (H & Hs).
    apply andb_prop in H. destruct H as (Hc & Hn). split.
    + destruct (nodeColor n); [reflexivity|discriminate].
    + destruct (blackCounts_rbt n Hn Hs) as (h & Hh & _). now exists h.
  - intros (Hc & h & Hh). apply rbt_blackCounts in Hh.
    destruct Hh as (-> & -> & _). now rewrite Hc.
Qed.

(** ** A subtree and what is around it *)

Lemma rbt_fill (f : frame) (n : Node) (h : nat) :
  rbt h n -> rbt h (frameSibling f) ->
  (frameColor f = red -> nodeColor n = black /\ nodeColor (frameSibling f) = black) ->
  rbt (match frameColor f with black => S h | red => h end) (fill f n).
Proof.
  destruct f as [[] k vs r|[] l k vs]; simpl; intros Hn Hs Hc; auto;
    destruct Hc as (? & ?); auto.
Qed.

Lemma plug_RedBlack (p : path) : forall n h,
  rbt h n -> pathOk h p -> fits n p -> RedBlack (plug n p) = true.
Proof.
  induction p as [|f p IH]; intros n h Hn Hp Hf.
  - simpl in *. apply RedBlack_rbt. split; [assumption|now exists h].
  - simpl in Hp, Hf |- *. destruct Hp as (Hs & Hp).
    destruct (frameColor f) eqn:Ec.
    + apply (IH _ (S h)); auto.
      * generalize (rbt_fill f n h Hn Hs). rewrite Ec. intros H. apply H.
        discriminate.
      * destruct p as [|f' p']; simpl; destruct f; simpl in *; subst; auto.
    + destruct Hp as (Hcs & Ht & Hp). apply (IH _ h); auto.
      * generalize (rbt_fill f n h Hn Hs). rewrite Ec. intros H. apply H.
        auto.
      * destruct p as [|f' p']; simpl in *; [contradiction|].
        intros E. rewrite E in Ht. discriminate.
Qed.

Lemma RedBlack_plug (p : path) : forall n,
  RedBlack (plug n p) = true ->
  exists h, rbt h n /\ pathOk h p /\ fits n p.
Proof.
  induction p as [|f p IH]; intros n H.
  - simpl in *. apply RedBlack_rbt in H. destruct H as (Hc & h & Hh).
    exists h. auto.
  - simpl in H. apply IH in H. destruct H as (h & Hn & Hp & Hf).
    assert (Ht : frameColor f = red -> topBlack p).
    { intros Ec. destruct p as [|f' p']; simpl in *.
      - destruct f; simpl in *; congruence.
      - destruct (frameColor f') eqn:E'; [reflexivity|].
        specialize (Hf eq_refl). destruct f; simpl in *; congruence. }
    destruct f as [[] k vs r|[] l k vs]; simpl in Hn, Ht |- *.
    + destruct h as [|h]; [contradiction|]. exists h. intuition discriminate.
    + exists h. intuition.
    + destruct h as [|h]; [contradiction|]. exists h. intuition discriminate.
    + exists h. intuition.
Qed.

(** ** Search paths *)

Lemma plug_app (q p : path) : forall n, plug n (q ++ p) = plug (plug n q) p.
Proof.
  induction q as [|f q IH]; intros n; simpl; [reflexivity|apply IH].
Qed.

Lemma searched_app (key : K) (q p : path) :
  searched key (q ++ p) <-> searched key q /\ searched key p.
Proof.
  induction q as [|[c k vs r|c l k vs] q IH]; simpl; tauto.
Qed.

Lemma before_app (q p : path) : before (q ++ p) = before p ++ before q.
Proof.
  induction q as [|[c k vs r|c l k vs] q IH]; simpl.
  - now rewrite app_nil_r.
  - assumption.
  - rewrite IH. now rewrite <- app_assoc.
Qed.

Lemma after_app (q p : path) : after (q ++ p) = after q ++ after p.
Proof.
  induction q as [|[c k vs r|c l k vs] q IH]; simpl.
  - reflexivity.
  - rewrite IH. now rewrite <- app_assoc.
  - assumption.
Qed.

Lemma lookupFrom_found (key : K) (n : Node) : forall p m p',
  lookupFrom key n p = Some (m, p') ->
  exists q c l k vs r,
    p' = q ++ p /\ searched key q /\ plug m q = n /\
    m = Nd c l k vs r /\ comparator key k = 0%Z.
Proof.
  induction n as [|c l IHl k vs r IHr]; intros p m p' H; simpl in H.
  - discriminate.
  - destruct (Z.eqb_spec (comparator key k) 0) as [E|E].
    + inversion H; subst. exists [], c, l, k, vs, r. simpl. auto.
    + destruct (Z.ltb_spec (comparator key k) 0) as [E'|E'].
      * apply IHl in H. destruct H as (q & c' & l' & k' & vs' & r' & -> & Hq & <- & -> & Hk).
        exists (q ++ [LeftOf c k vs r]), c', l', k', vs', r'.
        rewrite <- app_assoc, searched_app, plug_app. simpl. auto.
      * apply IHr in H. destruct H as (q & c' & l' & k' & vs' & r' & -> & Hq & <- & -> & Hk).
        exists (q ++ [RightOf c l k vs]), c', l', k', vs', r'.
        rewrite <- app_assoc, searched_app, plug_app. simpl.
        repeat split; auto. lia.
Qed.

Lemma lookupFrom_plug (key : K) (q : path) : forall m p,
  searched key q -> lookupFrom key (plug m q) p = lookupFrom key m (q ++ p).
Proof.
  induction q as [|[c k vs r|c l k vs] q IH]; intros m p Hq; simpl in *.
  - reflexivity.
  - destruct Hq as (Hk & Hq). rewrite IH by assumption. simpl.
    destruct (Z.eqb_spec (comparator key k) 0); [lia|].
    destruct (Z.ltb_spec (comparator key k) 0); [reflexivity|lia].
  - destruct Hq as (Hk & Hq). rewrite IH by assumption. simpl.
    destruct (Z.eqb_spec (comparator key k) 0); [lia|].
    destruct (Z.ltb_spec (comparator key k) 0); [lia|reflexivity].
Qed.

(** The descent of [Put] follows the descent of [lookup]. *)
Lemma PutLoop_lookupFrom (key : K) (value : V) (n : Node) : forall p,
  n <> Nil ->
  match lookupFrom key n p with
  | Some (m, p') =>
      exists c l k vs r,
        m = Nd c l k vs r /\
        PutLoop key value n p =
          Some (if duplicated value vs then Duplicated
                else Appended (Nd c l k (vs ++ [value]) r, p'))
  | None =>
      exists q, searched key q /\ plug Nil q = n /\
        PutLoop key value n p =
          Some (Inserted (Nd red Nil key [value] Nil, q ++ p))
  end.
Proof.
  induction n as [|c l IHl k vs r IHr]; intros p Hn; [contradiction|].
  simpl. destruct (Z.eqb_spec (comparator key k) 0) as [E|E].
  - exists c, l, k, vs, r. split; [reflexivity|].
    destruct (duplicated value vs); reflexivity.
  - destruct (Z.ltb_spec (comparator key k) 0) as [E'|E'].
    + destruct l as [|lc ll lk lvs lr].
      * simpl. exists [LeftOf c k vs r]. simpl. auto.
      * specialize (IHl (LeftOf c k vs r :: p)).
        destruct (lookupFrom key (Nd lc ll lk lvs lr) (LeftOf c k vs r :: p))
          as [[m p']|].
        -- apply IHl. discriminate.
        -- destruct IHl as (q & Hq & Hplug & HP); [discriminate|].
           exists (q ++ [LeftOf c k vs r]).
           rewrite searched_app, plug_app, Hplug, <- app_assoc. simpl. auto.
    + destruct r as [|rc rl rk rvs rr].
      * simpl. exists [RightOf c l k vs]. simpl. repeat split; auto. lia.
      * specialize (IHr (RightOf c l k vs :: p)).
        destruct (lookupFrom key (Nd rc rl rk rvs rr) (RightOf c l k vs :: p))
          as [[m p']|].
        -- apply IHr. discriminate.
        -- destruct IHr as (q & Hq & Hplug & HP); [discriminate|].
           exists (q ++ [RightOf c l k vs]).
           rewrite searched_app, plug_app, Hplug, <- app_assoc. simpl.
           repeat split; auto. lia.
Qed.

(** ** Insertion restores the coloring *)

Lemma path_ind2 (P : path -> Prop) :
  P [] -> (forall f, P [f]) ->
  (forall f g p, P p -> P (f :: g :: p)) ->
  forall p, P p.
Proof.
  intros H0 H1 H2.
  assert (H : forall p, P p /\ forall f, P (f :: p)).
  { induction p as [|g p (IH & IH')]; split; auto. }
  apply H.
Qed.

Ltac list_eq :=
  simpl; rewrite ?app_nil_r; repeat (rewrite <- app_assoc; simpl);
  rewrite ?app_nil_r; reflexivity.

#[local] Arguments plug : simpl never.

Ltac plugged h :=
  cbn; unfold rootOf; cbn; eexists; split; [reflexivity|]; split;
  [ apply (plug_RedBlack _ _ h); simpl; intuition (auto; try discriminate)
  | rewrite ?entries_plug; list_eq ].

Lemma insertCase1_ok (p : path) : forall fuel n h,
  rbt h n -> nodeColor n = red -> pathOk h p ->
  3 * List.length p + 1 <= fuel ->
  exists t, insertCase1 fuel (n, p) = Some t /\ RedBlack t = true /\
            entries t = before p ++ entries n ++ after p.
Proof.
  induction p as [|f|f g p IH] using path_ind2; intros fuel n h Hn Hc Hp Hfuel.
  - destruct fuel as [|fuel]; [simpl in Hfuel; lia|].
    destruct n as [|[] a k vs b]; try discriminate. simpl in Hn.
    plugged (S h).
  - destruct fuel as [|[|fuel]]; try (simpl in Hfuel; lia).
    destruct n as [|[] a k vs b]; try discriminate. simpl in Hn.
    destruct f as [[] fk fvs fr|[] fl fk fvs]; simpl in Hp;
      try (exfalso; tauto); plugged h.
  - destruct fuel as [|[|[|fuel]]]; try (simpl in Hfuel; lia).
    destruct n as [|[] a k vs b]; try discriminate. simpl in Hn.
    destruct f as [[] fk fvs fr|[] fl fk fvs]; simpl in Hp.
    all: destruct g as [[] gk gvs u|[] u gk gvs]; simpl in Hp;
      try (exfalso; intuition discriminate).
    all: try (plugged h; fail).
    all: destruct u as [|[] ua uk uvs ub]; simpl in Hp.
    all: try (plugged h; fail).
    all: cbn.
    all: match goal with
         | |- exists t, insertCase1 _ (?G, _) = _ /\ _ =>
             destruct (IH fuel G (S h)) as (t & E & RB & En);
               [ simpl; intuition | reflexivity | intuition
               | simpl in Hfuel |- *; lia | ];
             exists t; split; [exact E|]; split; [exact RB|];
             rewrite En; list_eq
         end.
Qed.

(** More fuel than the depth of the node asks for changes nothing: the
    calls of the insertion cases end before the fuel does. *)
Lemma insertCase1_fuel (p : path) : forall n fuel fuel',
  3 * List.length p + 1 <= fuel -> 3 * List.length p + 1 <= fuel' ->
  insertCase1 fuel (n, p) = insertCase1 fuel' (n, p).
Proof.
  induction p as [|f|f g p IH] using path_ind2; intros n fuel fuel' H H'.
  - destruct fuel, fuel'; simpl in H, H'; try lia. reflexivity.
  - destruct fuel as [|[|[|fuel]]], fuel' as [|[|[|fuel']]];
      simpl in H, H'; try lia.
    destruct f as [[] fk fvs fr|[] fl fk fvs]; reflexivity.
  - destruct fuel as [|[|[|fuel]]], fuel' as [|[|[|fuel']]];
      simpl in H, H'; try lia.
    destruct f as [[] fk fvs fr|[] fl fk fvs]; try reflexivity.
    all: destruct g as [gc gk gvs [|[] ua uk uvs ub]|gc [|[] ua uk uvs ub] gk gvs];
      try reflexivity.
    all: cbn; apply IH; lia.
Qed.

(** ** Put *)

Lemma Put_found (key : K) (value : V) (t : Tree) c l k vs r p :
  lookup key t = Some (Nd c l k vs r, p) ->
  Put (Some key) (Some value) t =
    Some (if duplicated value vs then t
          else mkTree (plug (Nd c l k (vs ++ [value]) r) p) (size t + 1)).
Proof.
  unfold lookup, Put. intros H.
  destruct (root t) as [|c0 l0 k0 vs0 r0] eqn:Er; [discriminate|].
  rewrite <- Er in *.
  assert (Hn : root t <> Nil) by (rewrite Er; discriminate).
  generalize (PutLoop_lookupFrom key value (root t) [] Hn). rewrite H.
  intros (c' & l' & k' & vs' & r' & E & ->). inversion E; subst.
  destruct (duplicated value vs'); reflexivity.
Qed.

Lemma Put_absent (key : K) (value : V) (t : Tree) :
  RedBlack (root t) = true -> lookup key t = None ->
  exists q r',
    searched key q /\ plug Nil q = root t /\
    Put (Some key) (Some value) t = Some (mkTree r' (size t + 1)) /\
    RedBlack r' = true /\
    entries r' = before q ++ (key, [value]) :: after q.
Proof.
  unfold lookup, Put. intros HRB H.
  destruct (root t) as [|c0 l0 k0 vs0 r0] eqn:Er.
  - destruct (insertCase1_ok [] (insertFuel (Nd red Nil key [value] Nil, []))
                (Nd red Nil key [value] Nil) 0) as (r' & E & RB & En);
      [simpl; auto ..|]; [unfold insertFuel; simpl; lia|].
    exists [], r'. cbv beta iota zeta. rewrite E. simpl in En. repeat split; auto.
  - rewrite <- Er in *.
    assert (Hn : root t <> Nil) by (rewrite Er; discriminate).
    generalize (PutLoop_lookupFrom key value (root t) [] Hn). rewrite H.
    intros (q & Hq & Hplug & ->). rewrite app_nil_r.
    rewrite <- Hplug in HRB. apply RedBlack_plug in HRB.
    destruct HRB as (h & Hh & Hp & _). simpl in Hh. subst h.
    destruct (insertCase1_ok q (insertFuel (Nd red Nil key [value] Nil, q))
                (Nd red Nil key [value] Nil) 0) as (r' & E & RB & En);
      [simpl; auto ..|]; [unfold insertFuel; simpl; lia|].
    exists q, r'. cbv beta iota zeta. rewrite E. simpl in En. repeat split; auto.
Qed.

(** ** Deletion restores the coloring *)

Ltac repaired_now :=
  cbn; eexists; split; [reflexivity|]; unfold repaired; simpl;
  repeat split; try list_eq; intuition (auto; try discriminate).

Lemma deleteCase4_ok (f : frame) (p : path) (n : Node) (h : nat) :
  pathOk (S h) (f :: p) ->
  nodeColor (frameSibling f) = black ->
  frameColor f = red \/
  colorOf (leftChild (frameSibling f, [])) = red \/
  colorOf (rightChild (frameSibling f, [])) = red ->
  exists p',
    deleteCase4 (n, f :: p) = Some ((n, p'), false) /\ repaired h (f :: p) p'.
Proof.
  intros Hp Hs Hred.
  destruct f as [pc pk pvs s|pc s pk pvs]; simpl in Hp, Hs, Hred.
  all: destruct s as [|sc sl sk svs sr]; simpl in Hp, Hs;
    [exfalso; intuition discriminate|]; subst sc.
  all: simpl in Hred.
  all: destruct pc; simpl in Hp.
  all: destruct sl as [|[] sla slk slvs slb]; simpl in Hp, Hred.
  all: destruct sr as [|[] sra srk srvs srb]; simpl in Hp, Hred.
  all: try (exfalso; intuition discriminate).
  all: repaired_now.
Qed.

#[local] Arguments deleteCase4 : simpl never.

Lemma deleteCase1_ok (p : path) : forall fuel n h,
  pathOk (S h) p -> 3 * List.length p + 1 <= fuel ->
  exists p', deleteCase1 fuel (n, p) = Some ((n, p'), false) /\ repaired h p p'.
Proof.
  induction p as [|f p IH]; intros fuel n h Hp Hfuel.
  - destruct fuel as [|fuel]; [simpl in Hfuel; lia|]. repaired_now.
  - destruct fuel as [|[|[|fuel]]]; try (simpl in Hfuel; lia).
    assert (Hs : exists sc sl sk svs sr, frameSibling f = Nd sc sl sk svs sr).
    { destruct Hp as (Hs & _). destruct (frameSibling f) as [|sc sl sk svs sr];
        [discriminate|]. now exists sc, sl, sk, svs, sr. }
    destruct Hs as (sc & sl & sk & svs & sr & Es).
    destruct sc.
    + (* black sibling *)
      destruct (frameColor f) eqn:Ec;
        [destruct (nodeColor sl) eqn:Ecl; [destruct (nodeColor sr) eqn:Ecr|]|].
      * (* case 3 *)
        destruct f as [pc pk pvs s|pc s pk pvs]; simpl in Es, Ec; subst.
        all: cbn; rewrite Ecl, Ecr; cbn.
        all: simpl in Hp.
        all: match goal with
             | |- context [deleteCase1 ?F (?P, _)] =>
                 destruct (IH F P (S h)) as (p' & E & R1 & R2 & R3 & R4);
                   [ intuition | simpl in Hfuel; lia | ];
                 rewrite E; cbn
             end.
        all: eexists; split; [reflexivity|]; unfold repaired; simpl.
        all: rewrite ?R3, ?R4; intuition.
      * destruct f as [pc pk pvs s|pc s pk pvs]; simpl in Es, Ec; subst.
        all: cbn; rewrite Ecl, Ecr; cbn.
        all: apply deleteCase4_ok; simpl; rewrite ?Ecr; auto.
      * destruct f as [pc pk pvs s|pc s pk pvs]; simpl in Es, Ec; subst.
        all: cbn; rewrite Ecl; cbn.
        all: apply deleteCase4_ok; simpl; rewrite ?Ecl; auto.
      * destruct f as [pc pk pvs s|pc s pk pvs]; simpl in Es, Ec; subst.
        all: cbn.
        all: apply deleteCase4_ok; simpl; auto.
    + (* red sibling: case 2 *)
      destruct f as [pc pk pvs s|pc s pk pvs]; simpl in Es; subst.
      all: simpl in Hp; destruct pc; [|exfalso; intuition discriminate].
      all: cbn.
      all: match goal with
           | |- context [deleteCase4 (?m, ?f' :: ?q)] =>
               destruct (deleteCase4_ok f' q m h) as (p' & E & R1 & R2 & R3 & R4);
                 [ simpl; intuition | simpl; tauto | simpl; auto | ];
               exists p'; split; [exact E|]; unfold repaired;
               rewrite R3, R4; repeat split; auto; list_eq
           end.
Qed.

(** The same for the deletion cases. *)
Lemma deleteCase1_fuel (p : path) : forall n fuel fuel',
  3 * List.length p + 1 <= fuel -> 3 * List.length p + 1 <= fuel' ->
  deleteCase1 fuel (n, p) = deleteCase1 fuel' (n, p).
Proof.
  induction p as [|f p IH]; intros n fuel fuel' H H'.
  - destruct fuel, fuel'; simpl in H, H'; try lia. reflexivity.
  - destruct fuel as [|[|[|fuel]]], fuel' as [|[|[|fuel']]];
      simpl in H, H'; try lia.
    destruct f as [pc pk pvs [|sc sl sk svs sr]|pc [|sc sl sk svs sr] pk pvs].
    all: try (destruct pc; reflexivity).
    all: destruct sc; try reflexivity.
    all: destruct pc; try reflexivity.
    all: cbn; destruct (nodeColor sl); try reflexivity.
    all: destruct (nodeColor sr); try reflexivity.
    all: cbn; rewrite (IH _ fuel fuel') by lia; reflexivity.
Qed.

(** ** Remove *)

Lemma RedBlack_setEntry (c : color) (l r : Node) (k k' : K) (vs vs' : list V)
    (p : path) :
  RedBlack (plug (Nd c l k vs r) p) = true ->
  RedBlack (plug (Nd c l k' vs' r) p) = true.
Proof.
  intros H. apply RedBlack_plug in H. destruct H as (h & Hn & Hp & Hf).
  apply (plug_RedBlack _ _ h); auto.
Qed.

Lemma maximumNode_spec (n : Node) :
  n <> Nil ->
  exists q c l k vs,
    (forall p, maximumNode n p = (Nd c l k vs Nil, q ++ p)) /\
    plug (Nd c l k vs Nil) q = n /\ after q = [].
Proof.
  induction n as [|c l _ k vs r IHr]; intros Hn; [contradiction|].
  destruct r as [|rc rl rk rvs rr].
  - exists [], c, l, k, vs. simpl. auto.
  - destruct IHr as (q & c' & l' & k' & vs' & Hmax & Hplug & Hafter);
      [discriminate|].
    exists (q ++ [RightOf c l k vs]), c', l', k', vs'. repeat split.
    + intros p. rewrite <- app_assoc. simpl. apply Hmax.
    + rewrite plug_app, Hplug. reflexivity.
    + rewrite after_app, Hafter. reflexivity.
Qed.

Lemma rbt_0_black (n : Node) : rbt 0 n -> nodeColor n = black -> n = Nil.
Proof.
  destruct n as [|[] l k vs r]; simpl; intros H Hc;
    [reflexivity|contradiction|discriminate].
Qed.

Lemma rbt_0 (n : Node) :
  rbt 0 n -> n = Nil \/ exists k vs, n = Nd red Nil k vs Nil.
Proof.
  destruct n as [|[] l k vs r]; simpl; intros H; auto; [contradiction|].
  destruct H as (Hl & Hr & Rl & Rr).
  rewrite (rbt_0_black l), (rbt_0_black r) by assumption. eauto.
Qed.

Lemma spliceOut_ok (c : color) (l r : Node) (k : K) (vs : list V) (p : path) :
  RedBlack (plug (Nd c l k vs r) p) = true ->
  l = Nil \/ r = Nil ->
  exists r', spliceOut (Nd c l k vs r, p) = Some r' /\ RedBlack r' = true /\
             entries r' = before p ++ entries l ++ entries r ++ after p.
Proof.
  intros H Hlr. apply RedBlack_plug in H. destruct H as (h & Hn & Hp & Hf).
  destruct c; simpl in Hn.
  - destruct h as [|h]; [contradiction|].
    assert (h = 0) as ->.
    { destruct Hlr; subst; simpl in Hn; intuition. }
    destruct Hn as (Hl & Hr).
    destruct (deleteCase1_ok p (3 * List.length p + 3)
                (Nd (nodeColor (if isNil r then l else r)) l k vs r) 0)
      as (p' & E & R1 & R2 & R3 & R4); [assumption|lia|].
    unfold spliceOut, deleteFuel. cbn.
    apply rbt_0 in Hl, Hr.
    destruct Hl as [->|(lk & lvs & ->)], Hr as [->|(rk & rvs & ->)];
      try (destruct Hlr; discriminate).
    all: cbn in E |- *; rewrite E; cbn.
    all: destruct p' as [|f p']; unfold rootOf, replaceNode; cbn; eexists;
      split; try reflexivity.
    all: split; [|rewrite entries_plug, R3, R4; list_eq].
    all: first [ apply (plug_RedBlack _ _ 0); simpl in *; intuition congruence
               | apply (plug_RedBlack _ _ 1); simpl in *; intuition congruence ].
  - destruct Hn as (Cl & Cr & Hl & Hr).
    assert (h = 0) as ->.
    { destruct Hlr; subst; simpl in *; intuition. }
    apply rbt_0_black in Hl, Hr; auto. subst.
    unfold spliceOut. cbn.
    destruct p as [|f p]; [discriminate|]. unfold rootOf, replaceNode. cbn.
    eexists; split; [reflexivity|].
    split; [|rewrite entries_plug; list_eq].
    apply (plug_RedBlack _ _ 0); simpl in *; intuition.
Qed.

Lemma removeNode_ok (c : color) (l r : Node) (k : K) (vs : list V) (p : path) :
  RedBlack (plug (Nd c l k vs r) p) = true ->
  exists r', removeNode (Nd c l k vs r, p) = Some r' /\ RedBlack r' = true /\
             entries r' = before p ++ entries l ++ entries r ++ after p.
Proof.
  intros H. unfold removeNode, predecessorSwap.
  destruct l as [|lc ll lk lvs lr].
  { cbn [fst snd leftOf rightOf isNil negb andb].
    apply spliceOut_ok; auto. }
  destruct r as [|rc rl rk rvs rr].
  { cbn [fst snd leftOf rightOf isNil negb andb].
    apply spliceOut_ok; auto. }
  cbn [fst snd leftOf rightOf isNil negb andb leftChild].
  destruct (maximumNode_spec (Nd lc ll lk lvs lr))
    as (q & pc & pl & pk & pvs & Hmax & Hplug & Hafter); [discriminate|].
  rewrite Hmax. cbn [fst snd setEntry leftChild]. rewrite Hmax.
  set (r := Nd rc rl rk rvs rr) in *.
  destruct (spliceOut_ok pc pl Nil pk pvs (q ++ LeftOf c pk pvs r :: p))
    as (r' & E & RB & En); auto.
  { rewrite plug_app, Hplug. cbn [plug fill].
    apply (RedBlack_setEntry c _ r k pk vs pvs). exact H. }
  exists r'. split; [exact E|]. split; [exact RB|].
  rewrite En, before_app, after_app, Hafter, <- Hplug, entries_plug, Hafter.
  list_eq.
Qed.

Lemma lookup_RedBlack (key : K) (t : Tree) (m : Node) (p : path) :
  lookup key t = Some (m, p) -> plug m p = root t.
Proof.
  unfold lookup. intros H. apply lookupFrom_found in H.
  destruct H as (q & c & l & k & vs & r & -> & _ & <- & _).
  now rewrite app_nil_r.
Qed.

(** [Remove] of a key that [lookup] finds: the node found leaves the walk in
    order, the coloring is restored. *)
Lemma Remove_found (key : K) (t : Tree) c l k vs r p :
  RedBlack (root t) = true ->
  lookup key t = Some (Nd c l k vs r, p) ->
  exists r',
    Remove (Some key) t =
      Some (mkTree r' (size t - Z.of_nat (List.length vs))) /\
    RedBlack r' = true /\
    entries (root t) = (before p ++ entries l) ++ (k, vs) :: entries r ++ after p /\
    entries r' = (before p ++ entries l) ++ entries r ++ after p.
Proof.
  intros HRB H. pose proof (lookup_RedBlack _ _ _ _ H) as Hplug.
  rewrite <- Hplug in HRB.
  destruct (removeNode_ok c l r k vs p HRB) as (r' & E & RB & En).
  exists r'. unfold Remove. rewrite H. cbn [fst valuesOf]. rewrite E.
  repeat split; auto.
  - rewrite <- Hplug, entries_plug. list_eq.
  - rewrite En. list_eq.
Qed.

Lemma Remove_absent (key : K) (t : Tree) :
  lookup key t = None -> Remove (Some key) t = Some t.
Proof.
  unfold Remove. now intros ->.
Qed.

(** ** What [Put] and [Remove] do to the walk in order *)

Lemma lookup_entries (key : K) (t : Tree) c l k vs r p :
  lookup key t = Some (Nd c l k vs r, p) ->
  comparator key k = 0%Z /\ searched key p /\
  entries (root t) = (before p ++ entries l) ++ (k, vs) :: entries r ++ after p.
Proof.
  intros H. pose proof (lookup_RedBlack _ _ _ _ H) as Hplug.
  unfold lookup in H. apply lookupFrom_found in H.
  destruct H as (q & c' & l' & k' & vs' & r' & -> & Hq & _ & E & Hk).
  inversion E; subst. rewrite app_nil_r. repeat split; auto.
  rewrite <- Hplug, entries_plug, app_nil_r. list_eq.
Qed.

Lemma lookup_setValues (key : K) (t : Tree) c l k vs r p (vs' : list V) (z : Z) :
  lookup key t = Some (Nd c l k vs r, p) ->
  lookup key (mkTree (plug (Nd c l k vs' r) p) z) = Some (Nd c l k vs' r, p).
Proof.
  intros H. destruct (lookup_entries _ _ _ _ _ _ _ _ H) as (Hk & Hq & _).
  unfold lookup. cbn [root]. rewrite lookupFrom_plug by assumption.
  rewrite app_nil_r. simpl. now rewrite Hk.
Qed.

Lemma Put_effect (key : K) (value : V) (t : Tree) :
  RedBlack (root t) = true ->
  exists t', Put (Some key) (Some value) t = Some t' /\
             RedBlack (root t') = true /\ putEffect key value t t'.
Proof.
  intros HRB. destruct (lookup key t) as [[[|c l k vs r] p]|] eqn:El.
  - unfold lookup in El. apply lookupFrom_found in El.
    destruct El as (q & c & l & k & vs & r & _ & _ & _ & E & _). discriminate.
  - rewrite (Put_found key value t c l k vs r p El).
    destruct (lookup_entries _ _ _ _ _ _ _ _ El) as (Hk & Hq & En).
    destruct (duplicated value vs) eqn:Ed.
    + exists t. repeat split; auto. left.
      exists (before p ++ entries l), k, vs, (entries r ++ after p).
      repeat split; auto.
      unfold Get. now rewrite El.
    + eexists. split; [reflexivity|]. cbn [root size]. split.
      * apply (RedBlack_setEntry c l r k k vs).
        now rewrite (lookup_RedBlack _ _ _ _ El).
      * left. exists (before p ++ entries l), k, vs, (entries r ++ after p).
        repeat split; auto; [unfold Get; now rewrite El|].
        right. cbn [root size]. repeat split; auto.
        -- rewrite entries_plug. list_eq.
        -- unfold Get.
           now rewrite (lookup_setValues key t c l k vs r p _ _ El).
  - destruct (Put_absent key value t HRB El)
      as (q & r' & Hq & Hplug & E & RB & En).
    exists (mkTree r' (size t + 1)). cbn [root size]. repeat split; auto.
    right. exists q. repeat split; auto.
    + unfold Get. now rewrite El.
    + rewrite <- Hplug, entries_plug. reflexivity.
Qed.

Lemma Remove_effect (key : K) (t : Tree) :
  RedBlack (root t) = true ->
  exists t', Remove (Some key) t = Some t' /\
             RedBlack (root t') = true /\ removeEffect key t t'.
Proof.
  intros HRB. destruct (lookup key t) as [[[|c l k vs r] p]|] eqn:El.
  - unfold lookup in El. apply lookupFrom_found in El.
    destruct El as (q & c & l & k & vs & r & _ & _ & _ & E & _). discriminate.
  - destruct (Remove_found key t c l k vs r p HRB El) as (r' & E & RB & En & En').
    destruct (lookup_entries _ _ _ _ _ _ _ _ El) as (Hk & _ & _).
    eexists. split; [exact E|]. cbn [root size]. split; [exact RB|].
    right. exists (before p ++ entries l), k, vs, (entries r ++ after p).
    repeat split; auto. unfold Get. now rewrite El.
  - exists t. rewrite (Remove_absent key t El). repeat split; auto.
    left. unfold Get. rewrite El. auto.
Qed.

(** ** The count of values and the value lists *)

Lemma valueCount_app (xs ys : list (K * list V)) :
  valueCount (xs ++ ys) = (valueCount xs + valueCount ys)%Z.
Proof.
  induction xs as [|e xs IH]; simpl; [reflexivity|]. rewrite IH. lia.
Qed.

Lemma valueCount_cons (k : K) (vs : list V) (es : list (K * list V)) :
  valueCount ((k, vs) :: es) = (Z.of_nat (List.length vs) + valueCount es)%Z.
Proof.
  reflexivity.
Qed.

Lemma noEmptyList_app (xs ys : list (K * list V)) :
  noEmptyList (xs ++ ys) = noEmptyList xs && noEmptyList ys.
Proof.
  apply forallb_app.
Qed.

Lemma Consistent_spec (t : Tree) :
  Consistent t = true <->
  RedBlack (root t) = true /\ size t = valueCount (entries (root t)) /\
  noEmptyList (entries (root t)) = true.
Proof.
  unfold Consistent, totalValues, nonEmptyValues.
  rewrite !andb_true_iff, Z.eqb_eq. tauto.
Qed.

Lemma Put_Consistent (key : option K) (value : option V) (t : Tree) :
  Consistent t = true ->
  exists t', Put key value t = Some t' /\ Consistent t' = true.
Proof.
  intros H. destruct key as [key|]; [|exists t; auto].
  destruct value as [value|]; [|exists t; auto].
  apply Consistent_spec in H. destruct H as (HRB & Hs & Hn).
  destruct (Put_effect key value t HRB) as (t' & E & RB & Eff).
  exists t'. split; [exact E|]. apply Consistent_spec.
  destruct Eff as [(xs & k & vs & ys & En & _ & _ & [(_ & ->)|(_ & En' & _ & Es)])
                  |(q & _ & _ & En & En' & Es)]; auto.
  - split; [exact RB|]. rewrite En in Hn, Hs. rewrite En', Es, Hs.
    rewrite !valueCount_app. rewrite noEmptyList_app in Hn |- *. simpl in *.
    rewrite length_app. simpl.
    apply andb_prop in Hn. destruct Hn as (Hx & Hy).
    apply andb_prop in Hy. destruct Hy as (_ & Hy). rewrite Hx, Hy.
    split; [rewrite Nat2Z.inj_add; simpl; lia|].
    rewrite Nat.add_1_r. reflexivity.
  - split; [exact RB|]. rewrite En in Hn, Hs. rewrite En', Es, Hs.
    rewrite !valueCount_app, valueCount_cons.
    rewrite noEmptyList_app in Hn |- *. simpl List.length.
    split; [lia|exact Hn].
Qed.

Lemma Remove_Consistent (key : option K) (t : Tree) :
  Consistent t = true ->
  exists t', Remove key t = Some t' /\ Consistent t' = true.
Proof.
  intros H. destruct key as [key|]; [|exists t; auto].
  apply Consistent_spec in H. destruct H as (HRB & Hs & Hn).
  destruct (Remove_effect key t HRB) as (t' & E & RB & Eff).
  exists t'. split; [exact E|]. apply Consistent_spec.
  destruct Eff as [(_ & ->)|(xs & k & vs & ys & _ & _ & En & En' & Es)]; auto.
  split; [exact RB|]. rewrite En in Hn, Hs. rewrite En', Es, Hs.
  rewrite !valueCount_app. rewrite noEmptyList_app in Hn |- *. simpl in *.
  apply andb_prop in Hn. destruct Hn as (Hx & Hy).
  apply andb_prop in Hy. destruct Hy as (_ & Hy). rewrite Hx, Hy.
  split; [lia|reflexivity].
Qed.

Lemma call_Consistent (c : Call) (t : Tree) :
  Consistent t = true ->
  exists t', call c t = Some t' /\ Consistent t' = true.
Proof.
  intros H. destruct c as [key value|key| | |]; simpl.
  - now apply Put_Consistent.
  - now apply Remove_Consistent.
  - exists (Clear t). auto.
  - unfold PopMin, PopLeft. destruct (LeftEntry t) as [[k vs]|].
    + destruct (Remove_Consistent (Some k) t H) as (t' & -> & H').
      exists t'. auto.
    + exists t. auto.
  - unfold PopMax, PopRight. destruct (RightEntry t) as [[k vs]|].
    + destruct (Remove_Consistent (Some k) t H) as (t' & -> & H').
      exists t'. auto.
    + exists t. auto.
Qed.

Lemma run_Consistent (cs : list Call) : forall t,
  Consistent t = true ->
  exists t', run cs t = Some t' /\ Consistent t' = true.
Proof.
  induction cs as [|c cs IH]; intros t H; simpl.
  - exists t. auto.
  - destruct (call_Consistent c t H) as (t1 & -> & H1). now apply IH.
Qed.

Lemma Get_entries (key : K) (t : Tree) (vs : list V) :
  Get (Some key) t = (vs, true) ->
  exists k, comparator key k = 0%Z /\ In (k, vs) (entries (root t)).
Proof.
  unfold Get. destruct (lookup key t) as [[[|c l k vs' r] p]|] eqn:El;
    intros E; inversion E; subst.
  - unfold lookup in El. apply lookupFrom_found in El.
    destruct El as (q & c & l & k & vs & r & _ & _ & _ & E' & _). discriminate.
  - destruct (lookup_entries _ _ _ _ _ _ _ _ El) as (Hk & _ & En).
    exists k. split; [exact Hk|]. rewrite En. apply in_or_app. right.
    simpl. auto.
Qed.

Lemma noEmptyList_In (es : list (K * list V)) (k : K) (vs : list V) :
  noEmptyList es = true -> In (k, vs) es -> 1 <= List.length vs.
Proof.
  unfold noEmptyList. rewrite forallb_forall. intros H Hin.
  apply H in Hin. simpl in Hin. destruct (List.length vs); [discriminate|lia].
Qed.

Lemma valueCount_0 (es : list (K * list V)) :
  noEmptyList es = true -> valueCount es = 0%Z -> es = [].
Proof.
  destruct es as [|[k vs] es]; [reflexivity|]. simpl. intros H E.
  apply andb_prop in H. destruct H as (H & _).
  destruct (List.length vs) eqn:El; [discriminate|].
  assert (0 <= valueCount es)%Z; [|lia].
  clear. induction es as [|e es IH]; simpl; lia.
Qed.

Lemma entries_nil (n : Node) : entries n = [] -> n = Nil.
Proof.
  destruct n as [|c l k vs r]; [reflexivity|]. simpl. intros H.
  now apply app_eq_nil in H.
Qed.

Lemma lookupFrom_absent (key : K) (n : Node) : forall p,
  lookupFrom key n p = None -> exists q, searched key q /\ plug Nil q = n.
Proof.
  induction n as [|c l IHl k vs r IHr]; intros p H; simpl in H.
  - exists []. simpl. auto.
  - destruct (Z.eqb_spec (comparator key k) 0) as [E|E]; [discriminate|].
    destruct (Z.ltb_spec (comparator key k) 0) as [E'|E'].
    + apply IHl in H. destruct H as (q & Hq & <-).
      exists (q ++ [LeftOf c k vs r]). rewrite searched_app, plug_app.
      simpl. auto.
    + apply IHr in H. destruct H as (q & Hq & <-).
      exists (q ++ [RightOf c l k vs]). rewrite searched_app, plug_app.
      simpl. repeat split; auto. lia.
Qed.

Lemma Get_found_or_not (key : K) (t : Tree) :
  (exists vs, Get (Some key) t = (vs, true)) \/ Get (Some key) t = ([], false).
Proof.
  unfold Get. destruct (lookup key t); eauto.
Qed.

(** ** The outermost nodes *)

Lemma leftmost_hd (n : Node) : forall par,
  n <> Nil ->
  exists c l k vs r rest,
    leftmost par n = Nd c l k vs r /\ entries n = (k, vs) :: rest.
Proof.
  induction n as [|c l IHl k vs r _]; intros par Hn; [contradiction|].
  simpl. destruct l as [|lc ll lk lvs lr].
  - simpl. exists c, Nil, k, vs, r, (entries r). auto.
  - destruct (IHl (Nd c (Nd lc ll lk lvs lr) k vs r))
      as (c' & l' & k' & vs' & r' & rest & E & En); [discriminate|].
    exists c', l', k', vs', r', (rest ++ (k, vs) :: entries r).
    split; [exact E|]. rewrite En. reflexivity.
Qed.

Lemma rightmost_last (n : Node) : forall par,
  n <> Nil ->
  exists c l k vs r rest,
    rightmost par n = Nd c l k vs r /\ entries n = rest ++ [(k, vs)].
Proof.
  induction n as [|c l _ k vs r IHr]; intros par Hn; [contradiction|].
  simpl. destruct r as [|rc rl rk rvs rr].
  - simpl. exists c, l, k, vs, Nil, (entries l). auto.
  - destruct (IHr (Nd c l k vs (Nd rc rl rk rvs rr)))
      as (c' & l' & k' & vs' & r' & rest & E & En); [discriminate|].
    exists c', l', k', vs', r', (entries l ++ (k, vs) :: rest).
    split; [exact E|]. rewrite En. list_eq.
Qed.

Lemma LeftEntry_hd (t : Tree) : LeftEntry t = hd_error (entries (root t)).
Proof.
  unfold LeftEntry. destruct (root t) as [|c l k vs r] eqn:Er; [reflexivity|].
  destruct (leftmost_hd (Nd c l k vs r) Nil)
    as (c' & l' & k' & vs' & r' & rest & -> & ->); [discriminate|].
  reflexivity.
Qed.

Lemma Left_hd (t : Tree) :
  Left t = match hd_error (entries (root t)) with
           | Some (_, vs) => vs
           | None => []
           end.
Proof.
  unfold Left. destruct (root t) as [|c l k vs r] eqn:Er; [reflexivity|].
  destruct (leftmost_hd (Nd c l k vs r) Nil)
    as (c' & l' & k' & vs' & r' & rest & -> & ->); [discriminate|].
  reflexivity.
Qed.

Lemma last_error_app {A : Type} (xs : list A) (x : A) :
  hd_error (rev (xs ++ [x])) = Some x.
Proof.
  now rewrite rev_app_distr.
Qed.

Lemma RightEntry_last (t : Tree) :
  RightEntry t = hd_error (rev (entries (root t))).
Proof.
  unfold RightEntry. destruct (root t) as [|c l k vs r] eqn:Er; [reflexivity|].
  destruct (rightmost_last (Nd c l k vs r) Nil)
    as (c' & l' & k' & vs' & r' & rest & -> & ->); [discriminate|].
  now rewrite last_error_app.
Qed.

Lemma Right_last (t : Tree) :
  Right t = match hd_error (rev (entries (root t))) with
            | Some (_, vs) => vs
            | None => []
            end.
Proof.
  unfold Right. destruct (root t) as [|c l k vs r] eqn:Er; [reflexivity|].
  destruct (rightmost_last (Nd c l k vs r) Nil)
    as (c' & l' & k' & vs' & r' & rest & -> & ->); [discriminate|].
  now rewrite last_error_app.
Qed.

(** ** Ascending lists *)

Lemma StronglySorted_app {A : Type} (R : A -> A -> Prop) (xs ys : list A) :
  StronglySorted R (xs ++ ys) <->
  StronglySorted R xs /\ StronglySorted R ys /\
  (forall x y, In x xs -> In y ys -> R x y).
Proof.
  induction xs as [|a xs IH]; simpl.
  - split; [intros H; repeat split; auto; [constructor|contradiction]|tauto].
  - split.
    + intros H. inversion H as [|? ? Hs Hf]; subst. apply IH in Hs.
      destruct Hs as (Hx & Hy & Hxy). rewrite Forall_app in Hf.
      destruct Hf as (Hfx & Hfy). repeat split; auto.
      * constructor; auto.
      * intros x y [<-|Hx'] Hy'; [|auto].
        rewrite Forall_forall in Hfy. auto.
    + intros (Hx & Hy & Hxy). inversion Hx as [|? ? Hs Hf]; subst.
      constructor.
      * apply IH. repeat split; auto.
      * rewrite Forall_app. split; [assumption|].
        rewrite Forall_forall. intros y Hy'. apply Hxy; auto.
Qed.

Lemma keys_Nd c l k vs r : keys (Nd c l k vs r) = keys l ++ k :: keys r.
Proof.
  unfold keys. simpl. now rewrite map_app.
Qed.

Ltac same_list H :=
  match goal with
  | |- ascending ?g =>
      match type of H with
      | ascending ?h => replace g with h; [exact H|f_equal; list_eq]
      end
  end.

Section Ordered.

(** The comparator is a total order on the keys: zero on equal keys only,
    its sign turns with its arguments, and less-than is transitive. *)
Hypothesis comparator_eq : forall a b, comparator a b = 0%Z <-> a = b.
Hypothesis comparator_sym :
  forall a b, (comparator a b < 0)%Z <-> (comparator b a > 0)%Z.
Hypothesis comparator_trans :
  forall a b c,
    (comparator a b < 0)%Z -> (comparator b c < 0)%Z -> (comparator a c < 0)%Z.

Lemma comparator_refl (a : K) : comparator a a = 0%Z.
Proof.
  now apply comparator_eq.
Qed.

Lemma ascending_not_In (xs ys : list K) (k : K) :
  ascending (xs ++ k :: ys) -> ~ In k (xs ++ ys).
Proof.
  unfold ascending. intros H Hin. apply StronglySorted_app in H.
  destruct H as (_ & Hy & Hxy). inversion Hy as [|? ? _ Hf]; subst.
  apply in_app_or in Hin. destruct Hin as [Hin|Hin].
  - specialize (Hxy k k Hin (or_introl eq_refl)).
    rewrite comparator_refl in Hxy. lia.
  - rewrite Forall_forall in Hf. specialize (Hf k Hin).
    rewrite comparator_refl in Hf. lia.
Qed.

Lemma ascending_remove (xs ys : list K) (k : K) :
  ascending (xs ++ k :: ys) -> ascending (xs ++ ys).
Proof.
  unfold ascending. rewrite !StronglySorted_app.
  intros (Hx & Hy & Hxy). inversion Hy; subst. repeat split; auto.
  intros x y Hx' Hy'. apply Hxy; simpl; auto.
Qed.

Lemma ascending_insert (xs ys : list K) (k : K) :
  ascending (xs ++ ys) ->
  (forall x, In x xs -> (comparator x k < 0)%Z) ->
  (forall y, In y ys -> (comparator k y < 0)%Z) ->
  ascending (xs ++ k :: ys).
Proof.
  unfold ascending. rewrite !StronglySorted_app.
  intros (Hx & Hy & Hxy) Hlo Hhi. repeat split; auto.
  - constructor; auto. rewrite Forall_forall. exact Hhi.
  - intros x y Hx' [<-|Hy']; auto.
Qed.

Lemma ascending_NoDup (ks : list K) : ascending ks -> NoDup ks.
Proof.
  induction 1 as [|k ks Hs IH Hf]; constructor; auto.
  intros Hin. rewrite Forall_forall in Hf. specialize (Hf k Hin).
  rewrite comparator_refl in Hf. lia.
Qed.

(** The order of the subtrees and the order of the walk. *)
Lemma BST_ascending (n : Node) : BST n = true <-> ascending (keys n).
Proof.
  induction n as [|c l IHl k vs r IHr].
  - split; [constructor|reflexivity].
  - rewrite keys_Nd. simpl. rewrite !andb_true_iff, !forallb_forall, IHl, IHr.
    unfold ascending. rewrite StronglySorted_app. split.
    + intros (((Hl & Hr) & Sl) & Sr).
      assert (Hk : forall y, In y (keys r) -> (comparator k y < 0)%Z).
      { intros y Hy. apply comparator_sym. apply Hr in Hy.
        apply Z.gtb_lt in Hy. lia. }
      repeat split; auto.
      * constructor; auto. rewrite Forall_forall. exact Hk.
      * intros x y Hx [<-|Hy]; [apply Z.ltb_lt; auto|].
        apply (comparator_trans x k y); [apply Z.ltb_lt; auto|auto].
    + intros (Sl & Sr & Hxy). inversion Sr as [|? ? Sr' Hf]; subst.
      repeat split; auto.
      * intros x Hx. apply Z.ltb_lt. apply Hxy; simpl; auto.
      * intros y Hy. rewrite Forall_forall in Hf. apply Hf in Hy.
        apply comparator_sym in Hy. apply Z.gtb_lt. lia.
Qed.

(** Along a search path for [key], what is left of the path is smaller than
    the key and what is right of it is larger. *)
Lemma searched_bounds (key : K) (q : path) : forall mid,
  searched key q ->
  ascending (map fst (before q ++ mid ++ after q)) ->
  (forall x, In x (map fst (before q)) -> (comparator x key < 0)%Z) /\
  (forall y, In y (map fst (after q)) -> (comparator key y < 0)%Z).
Proof.
  induction q as [|[c k vs r|c l k vs] q IH]; intros mid Hq Ha; simpl in *.
  - split; intros ? [].
  - destruct Hq as (Hk & Hq).
    destruct (IH (mid ++ (k, vs) :: entries r)) as (Hlo & Hhi); auto.
    { same_list Ha. }
    split; [exact Hlo|]. intros y [<-|Hy]; [exact Hk|].
    rewrite map_app in Hy. apply in_app_or in Hy.
    destruct Hy as [Hy|Hy]; [|auto].
    apply (comparator_trans key k y); [exact Hk|].
    unfold ascending in Ha. rewrite !map_app in Ha. simpl in Ha.
    apply StronglySorted_app in Ha. destruct Ha as (_ & Ha & _).
    apply StronglySorted_app in Ha. destruct Ha as (_ & Ha & _).
    inversion Ha as [|? ? _ Hf]; subst. rewrite map_app, Forall_app in Hf.
    destruct Hf as (Hf & _). rewrite Forall_forall in Hf. auto.
  - destruct Hq as (Hk & Hq).
    destruct (IH (entries l ++ (k, vs) :: mid)) as (Hlo & Hhi); auto.
    { same_list Ha. }
    split; [|exact Hhi]. intros x Hx.
    rewrite !map_app in Hx. simpl in Hx. apply in_app_or in Hx.
    destruct Hx as [Hx|Hx]; [auto|]. apply in_app_or in Hx.
    assert (Hk' : (comparator k key < 0)%Z) by (apply comparator_sym; lia).
    destruct Hx as [Hx|[<-|[]]]; [|exact Hk'].
    apply (comparator_trans x k key); [|exact Hk'].
    unfold ascending in Ha. rewrite <- !app_assoc in Ha.
    rewrite !map_app in Ha. simpl in Ha.
    apply StronglySorted_app in Ha. destruct Ha as (_ & Ha & _).
    apply StronglySorted_app in Ha. destruct Ha as (_ & _ & Ha).
    apply Ha; simpl; auto.
Qed.

Lemma split_at_key (xs xs' ys ys' : list (K * list V)) (k : K) (v v' : list V) :
  NoDup (map fst (xs ++ (k, v) :: ys)) ->
  xs ++ (k, v) :: ys = xs' ++ (k, v') :: ys' ->
  xs = xs' /\ v = v' /\ ys = ys'.
Proof.
  revert xs'. induction xs as [|x xs IH]; intros xs' Hnd E.
  - destruct xs' as [|x' xs']; simpl in E.
    + inversion E; auto.
    + exfalso. inversion E; subst. simpl in Hnd. inversion Hnd as [|? ? Hn _].
      apply Hn. rewrite map_app. apply in_or_app. right. simpl. auto.
  - destruct xs' as [|x' xs']; simpl in E.
    + exfalso. inversion E; subst. simpl in Hnd. inversion Hnd as [|? ? Hn _].
      apply Hn. rewrite map_app. apply in_or_app. right. simpl. auto.
    + inversion E; subst. simpl in Hnd. inversion Hnd; subst.
      destruct (IH xs') as (-> & -> & ->); auto.
Qed.

(** [Get] finds the keys of the walk in order, and only these. *)
Lemma Get_absent (key : K) (t : Tree) :
  ascending (keys (root t)) ->
  Get (Some key) t = ([], false) -> ~ In key (keys (root t)).
Proof.
  unfold Get. intros Ha H.
  destruct (lookup key t) as [node|] eqn:El; [discriminate|].
  unfold lookup in El. apply lookupFrom_absent in El.
  destruct El as (q & Hq & Hplug).
  unfold keys in *. rewrite <- Hplug, entries_plug in Ha |- *. simpl in *.
  destruct (searched_bounds key q [] Hq Ha) as (Hlo & Hhi).
  rewrite map_app. intros Hin. apply in_app_or in Hin.
  destruct Hin as [Hin|Hin]; [apply Hlo in Hin|apply Hhi in Hin];
    rewrite comparator_refl in Hin; lia.
Qed.

Lemma Get_present (key : K) (t : Tree) (vs : list V) :
  ascending (keys (root t)) ->
  In (key, vs) (entries (root t)) -> Get (Some key) t = (vs, true).
Proof.
  intros Ha Hin.
  destruct (Get_found_or_not key t) as [(vs' & E)|E].
  - rewrite E. destruct (Get_entries key t vs' E) as (k & Hk & Hin').
    apply comparator_eq in Hk. subst k.
    apply in_split in Hin. destruct Hin as (xs & ys & En).
    apply in_split in Hin'. destruct Hin' as (xs' & ys' & En').
    rewrite En in En'. apply split_at_key in En'.
    + destruct En' as (_ & -> & _). reflexivity.
    + apply ascending_NoDup. unfold keys in Ha. now rewrite En in Ha.
  - exfalso. apply (Get_absent key t Ha E). unfold keys.
    apply in_map_iff. exists (key, vs). auto.
Qed.

Lemma Get_key (key : K) (t : Tree) (vs : list V) :
  Get (Some key) t = (vs, true) -> In (key, vs) (entries (root t)).
Proof.
  intros E. destruct (Get_entries key t vs E) as (k & Hk & Hin).
  apply comparator_eq in Hk. now subst.
Qed.

(** [Put] keeps the walk ascending and adds its key to it. *)
Lemma putEffect_ascending (key : K) (value : V) (t t' : Tree) :
  putEffect key value t t' -> ascending (keys (root t)) ->
  ascending (keys (root t')) /\
  (forall x, In x (keys (root t')) <-> x = key \/ In x (keys (root t))).
Proof.
  intros [(xs & k & vs & ys & En & Hk & _ & Eff)|(q & _ & Hq & En & En' & _)] Ha.
  - apply comparator_eq in Hk. subst k.
    assert (Hin : In key (keys (root t))).
    { unfold keys. rewrite En, map_app. apply in_or_app. right. simpl. auto. }
    assert (Hkeys : keys (root t') = keys (root t)).
    { destruct Eff as [(_ & ->)|(_ & En' & _)]; [reflexivity|].
      unfold keys. rewrite En, En', !map_app. reflexivity. }
    rewrite Hkeys. split; [exact Ha|]. intros x. split; [auto|].
    intros [->|Hx]; auto.
  - unfold keys in *. rewrite En in Ha. rewrite En, En'.
    destruct (searched_bounds key q [] Hq Ha) as (Hlo & Hhi).
    rewrite !map_app in *. simpl. split.
    + apply ascending_insert; auto.
    + intros x. rewrite !in_app_iff. simpl. intuition.
Qed.

(** [Remove] keeps the walk ascending and takes its key out of it. *)
Lemma Remove_ordered (key : K) (t : Tree) (xs ys : list (K * list V))
    (vs : list V) :
  RedBlack (root t) = true -> ascending (keys (root t)) ->
  entries (root t) = xs ++ (key, vs) :: ys ->
  exists t', Remove (Some key) t = Some t' /\ RedBlack (root t') = true /\
             entries (root t') = xs ++ ys /\
             size t' = (size t - Z.of_nat (List.length vs))%Z.
Proof.
  intros HRB Ha En.
  destruct (Remove_effect key t HRB) as (t' & E & RB & Eff).
  exists t'. split; [exact E|]. split; [exact RB|].
  destruct Eff as [(Hg & _)|(xs' & k & vs' & ys' & Hk & _ & En0 & En' & Es)].
  - exfalso. apply (Get_absent key t Ha Hg). unfold keys. rewrite En, map_app.
    apply in_or_app. right. simpl. auto.
  - apply comparator_eq in Hk. subst k. rewrite En in En0.
    apply split_at_key in En0.
    + destruct En0 as (-> & -> & ->). auto.
    + apply ascending_NoDup. unfold keys in Ha. now rewrite En in Ha.
Qed.

(** ** Floor and Ceiling *)

Lemma comparator_le_ge (a b : K) :
  (comparator a b <= 0)%Z <-> (comparator b a >= 0)%Z.
Proof.
  pose proof (comparator_sym a b). pose proof (comparator_sym b a).
  pose proof (comparator_eq a b). pose proof (comparator_eq b a).
  split; intros Hle.
  - destruct (Z.eq_dec (comparator a b) 0) as [E|E].
    + assert (comparator b a = 0%Z) by (apply comparator_eq; symmetry; tauto).
      lia.
    + lia.
  - destruct (Z.eq_dec (comparator b a) 0) as [E|E].
    + assert (comparator a b = 0%Z) by (apply comparator_eq; symmetry; tauto).
      lia.
    + lia.
Qed.

Lemma ascending_Nd c l k vs r :
  ascending (keys (Nd c l k vs r)) ->
  ascending (keys l) /\ ascending (keys r) /\
  (forall x, In x (keys l) -> (comparator x k < 0)%Z) /\
  (forall y, In y (keys r) -> (comparator k y < 0)%Z).
Proof.
  rewrite keys_Nd. unfold ascending. rewrite StronglySorted_app.
  intros (Sl & Sr & Hxy). inversion Sr as [|? ? Sr' Hf]; subst.
  rewrite Forall_forall in Hf. repeat split; auto.
  intros x Hx. apply Hxy; simpl; auto.
Qed.

Lemma In_keys (k : K) (vs : list V) (n : Node) :
  In (k, vs) (entries n) -> In k (keys n).
Proof.
  intros H. unfold keys. apply in_map_iff. exists (k, vs). auto.
Qed.

(** The result of the loop of [Floor] on an ordered subtree: the values of
    the largest key not above [key], or else what the loop came with. *)
Lemma floorFrom_spec (key : K) (n : Node) : forall fl fd,
  ascending (keys n) ->
  (exists k vs,
      In (k, vs) (entries n) /\ (comparator key k >= 0)%Z /\
      (forall k', In k' (keys n) -> (comparator key k' >= 0)%Z ->
                  (comparator k' k <= 0)%Z) /\
      floorFrom key n fl fd = (vs, true))
  \/
  ((forall k', In k' (keys n) -> (comparator key k' < 0)%Z) /\
   floorFrom key n fl fd = (if fd then (fl, true) else ([], false))).
Proof.
  induction n as [|c l IHl k vs r IHr]; intros fl fd Ha.
  - right. split; [intros ? []|reflexivity].
  - apply ascending_Nd in Ha. destruct Ha as (Al & Ar & Hl & Hr).
    simpl floorFrom.
    destruct (Z.eqb_spec (comparator key k) 0) as [E|E].
    + left. exists k, vs. apply comparator_eq in E. subst k.
      repeat split; auto.
      * simpl. apply in_or_app. right. simpl. auto.
      * rewrite comparator_refl. lia.
      * intros k' _ Hk'. now apply comparator_le_ge.
    + destruct (Z.ltb_spec (comparator key k) 0) as [E'|E'].
      * destruct (IHl fl fd Al) as [(k1 & vs1 & Hin & Hle & Hmax & ->)|(Hall & ->)].
        -- left. exists k1, vs1. repeat split; auto.
           ++ simpl. apply in_or_app. auto.
           ++ intros k' Hk' Hge. rewrite keys_Nd in Hk'.
              apply in_app_or in Hk'. destruct Hk' as [Hk'|[<-|Hk']]; auto.
              ** lia.
              ** pose proof (comparator_trans key k k' E' (Hr k' Hk')). lia.
        -- right. split; [|reflexivity]. intros k' Hk'. rewrite keys_Nd in Hk'.
           apply in_app_or in Hk'. destruct Hk' as [Hk'|[<-|Hk']]; auto.
           apply (comparator_trans key k k' E' (Hr k' Hk')).
      * assert (Hk : (comparator k key < 0)%Z) by (apply comparator_sym; lia).
        destruct (IHr vs true Ar) as [(k2 & vs2 & Hin & Hle & Hmax & ->)|(Hall & ->)].
        -- left. exists k2, vs2. repeat split; auto.
           ++ simpl. apply in_or_app. right. simpl. auto.
           ++ intros k' Hk' Hge. rewrite keys_Nd in Hk'.
              pose proof (Hr k2 (In_keys _ _ _ Hin)) as Hk2.
              apply in_app_or in Hk'. destruct Hk' as [Hk'|[<-|Hk']]; auto.
              ** pose proof (comparator_trans k' k k2 (Hl k' Hk') Hk2). lia.
              ** lia.
        -- left. exists k, vs. repeat split; auto.
           ++ simpl. apply in_or_app. right. simpl. auto.
           ++ lia.
           ++ intros k' Hk' Hge. rewrite keys_Nd in Hk'.
              apply in_app_or in Hk'. destruct Hk' as [Hk'|[<-|Hk']].
              ** pose proof (Hl k' Hk'). lia.
              ** rewrite comparator_refl. lia.
              ** pose proof (Hall k' Hk'). lia.
Qed.

Lemma ceilingFrom_spec (key : K) (n : Node) : forall cl fd,
  ascending (keys n) ->
  (exists k vs,
      In (k, vs) (entries n) /\ (comparator key k <= 0)%Z /\
      (forall k', In k' (keys n) -> (comparator key k' <= 0)%Z ->
                  (comparator k' k >= 0)%Z) /\
      ceilingFrom key n cl fd = (vs, true))
  \/
  ((forall k', In k' (keys n) -> (comparator key k' > 0)%Z) /\
   ceilingFrom key n cl fd = (if fd then (cl, true) else ([], false))).
Proof.
  induction n as [|c l IHl k vs r IHr]; intros cl fd Ha.
  - right. split; [intros ? []|reflexivity].
  - apply ascending_Nd in Ha. destruct Ha as (Al & Ar & Hl & Hr).
    simpl ceilingFrom.
    destruct (Z.eqb_spec (comparator key k) 0) as [E|E].
    + left. exists k, vs. apply comparator_eq in E. subst k.
      repeat split; auto.
      * simpl. apply in_or_app. right. simpl. auto.
      * rewrite comparator_refl. lia.
      * intros k' _ Hk'. now apply comparator_le_ge.
    + destruct (Z.ltb_spec (comparator key k) 0) as [E'|E'].
      * destruct (IHl vs true Al) as [(k1 & vs1 & Hin & Hle & Hmax & ->)|(Hall & ->)].
        -- left. exists k1, vs1. repeat split; auto.
           ++ simpl. apply in_or_app. auto.
           ++ intros k' Hk' Hge. rewrite keys_Nd in Hk'.
              pose proof (Hl k1 (In_keys _ _ _ Hin)) as Hk1.
              apply in_app_or in Hk'. destruct Hk' as [Hk'|[<-|Hk']]; auto.
              ** apply comparator_sym in Hk1. lia.
              ** pose proof (comparator_trans k1 k k' Hk1 (Hr k' Hk')) as Ht.
                 apply comparator_sym in Ht. lia.
        -- left. exists k, vs. repeat split; auto.
           ++ simpl. apply in_or_app. right. simpl. auto.
           ++ lia.
           ++ intros k' Hk' Hge. rewrite keys_Nd in Hk'.
              apply in_app_or in Hk'. destruct Hk' as [Hk'|[<-|Hk']].
              ** pose proof (Hall k' Hk'). lia.
              ** rewrite comparator_refl. lia.
              ** pose proof (Hr k' Hk') as Ht. apply comparator_sym in Ht. lia.
      * assert (Hk : (comparator k key < 0)%Z) by (apply comparator_sym; lia).
        destruct (IHr cl fd Ar) as [(k2 & vs2 & Hin & Hle & Hmax & ->)|(Hall & ->)].
        -- left. exists k2, vs2. repeat split; auto.
           ++ simpl. apply in_or_app. right. simpl. auto.
           ++ intros k' Hk' Hge. rewrite keys_Nd in Hk'.
              apply in_app_or in Hk'. destruct Hk' as [Hk'|[<-|Hk']]; auto.
              ** pose proof (comparator_trans k' k key (Hl k' Hk') Hk) as Ht.
                 apply comparator_sym in Ht. lia.
              ** lia.
        -- right. split; [|reflexivity]. intros k' Hk'. rewrite keys_Nd in Hk'.
           apply in_app_or in Hk'. destruct Hk' as [Hk'|[<-|Hk']]; auto.
           ++ apply comparator_sym.
              apply (comparator_trans k' k key (Hl k' Hk') Hk).
           ++ lia.
Qed.

(** ** Sequences of Put *)

Lemma putAll_ok (puts : list (option K * option V)) : forall t,
  RedBlack (root t) = true -> ascending (keys (root t)) ->
  exists t', putAll puts t = Some t' /\ RedBlack (root t') = true /\
             ascending (keys (root t')) /\
             (forall x, In x (keys (root t')) <->
                        In x (insertedKeys puts) \/ In x (keys (root t))).
Proof.
  induction puts as [|[key value] puts IH]; intros t HRB Ha; simpl.
  - exists t. repeat split; auto. tauto.
  - destruct key as [key|]; [destruct value as [value|]|].
    + destruct (Put_effect key value t HRB) as (t1 & -> & RB1 & Eff).
      destruct (putEffect_ascending key value t t1 Eff Ha) as (Ha1 & Hk1).
      destruct (IH t1 RB1 Ha1) as (t' & E & RB & Ha' & Hk').
      exists t'. repeat split; auto.
      * intros Hx. apply Hk' in Hx. rewrite Hk1 in Hx. simpl.
        intuition (subst; auto).
      * intros Hx. apply Hk'. rewrite Hk1. simpl in Hx.
        intuition (subst; auto).
    + simpl. apply IH; auto.
    + simpl. apply IH; auto.
Qed.

(** ** Popping until the tree is empty *)

Lemma valueCount_nonneg (es : list (K * list V)) : (0 <= valueCount es)%Z.
Proof.
  induction es as [|e es IH]; simpl; lia.
Qed.

Lemma Empty_entries (t : Tree) :
  Consistent t = true -> Empty t = true <-> entries (root t) = [].
Proof.
  intros H. apply Consistent_spec in H. destruct H as (_ & Hs & Hn).
  unfold Empty. rewrite Z.eqb_eq, Hs. split.
  - now apply valueCount_0.
  - now intros ->.
Qed.

Lemma drainMin_fuel (fuel : nat) (t : Tree) :
  drainMin fuel t =
    if Empty t then Some ([], t)
    else match fuel with
         | O => None
         | S fuel' =>
             r <- PopMin t ;;
             d <- drainMin fuel' (snd r) ;;
             Some (fst r :: fst d, snd d)
         end.
Proof.
  destruct fuel; reflexivity.
Qed.

Lemma drainMax_fuel (fuel : nat) (t : Tree) :
  drainMax fuel t =
    if Empty t then Some ([], t)
    else match fuel with
         | O => None
         | S fuel' =>
             r <- PopMax t ;;
             d <- drainMax fuel' (snd r) ;;
             Some (fst r :: fst d, snd d)
         end.
Proof.
  destruct fuel; reflexivity.
Qed.

Lemma Remove_ordered_Consistent (key : K) (t : Tree)
    (xs ys : list (K * list V)) (vs : list V) :
  Consistent t = true -> ascending (keys (root t)) ->
  entries (root t) = xs ++ (key, vs) :: ys ->
  exists t', Remove (Some key) t = Some t' /\ Consistent t' = true /\
             ascending (keys (root t')) /\ entries (root t') = xs ++ ys.
Proof.
  intros H Ha En. pose proof H as H0.
  apply Consistent_spec in H. destruct H as (HRB & _).
  destruct (Remove_ordered key t xs ys vs HRB Ha En) as (t' & E & RB & En' & _).
  exists t'. split; [exact E|].
  destruct (Remove_Consistent (Some key) t H0) as (t2 & E2 & H2).
  rewrite E in E2. inversion E2; subst t2.
  repeat split; auto. unfold keys in *. rewrite En', map_app.
  rewrite En, map_app in Ha. simpl in Ha. now apply ascending_remove in Ha.
Qed.

Lemma drainMin_ok (es : list (K * list V)) : forall t fuel,
  entries (root t) = es -> Consistent t = true ->
  ascending (keys (root t)) -> List.length es <= fuel ->
  exists t', drainMin fuel t = Some (map Some es, t') /\ Empty t' = true.
Proof.
  induction es as [|[k vs] es IH]; intros t fuel En H Ha Hfuel.
  - rewrite drainMin_fuel.
    assert (E : Empty t = true) by (now apply Empty_entries).
    rewrite E. exists t. auto.
  - rewrite drainMin_fuel.
    destruct (Empty t) eqn:E.
    { apply Empty_entries in E; auto. rewrite E in En. discriminate. }
    destruct fuel as [|fuel]; [simpl in Hfuel; lia|].
    unfold PopMin, PopLeft. rewrite LeftEntry_hd, En. cbn [hd_error].
    destruct (Remove_ordered_Consistent k t [] es vs H Ha En)
      as (t1 & -> & H1 & Ha1 & En1).
    cbn [snd fst].
    destruct (IH t1 fuel En1 H1 Ha1) as (t' & -> & E'); [simpl in Hfuel; lia|].
    exists t'. auto.
Qed.

Lemma drainMax_ok (es : list (K * list V)) : forall t fuel,
  entries (root t) = es -> Consistent t = true ->
  ascending (keys (root t)) -> List.length es <= fuel ->
  exists t', drainMax fuel t = Some (map Some (rev es), t') /\ Empty t' = true.
Proof.
  induction es as [|[k vs] es IH] using rev_ind; intros t fuel En H Ha Hfuel.
  - rewrite drainMax_fuel.
    assert (E : Empty t = true) by (now apply Empty_entries).
    rewrite E. exists t. auto.
  - rewrite drainMax_fuel.
    destruct (Empty t) eqn:E.
    { apply Empty_entries in E; auto. rewrite E in En.
      now apply app_cons_not_nil in En. }
    rewrite length_app in Hfuel. simpl in Hfuel.
    destruct fuel as [|fuel]; [lia|].
    unfold PopMax, PopRight. rewrite RightEntry_last, En, last_error_app.
    destruct (Remove_ordered_Consistent k t es [] vs H Ha En)
      as (t1 & -> & H1 & Ha1 & En1).
    cbn [snd fst]. rewrite app_nil_r in En1.
    destruct (IH t1 fuel En1 H1 Ha1) as (t' & -> & E'); [lia|].
    exists t'. rewrite rev_app_distr. auto.
Qed.

Lemma ascending_rev (ks : list K) : ascending ks -> descending (rev ks).
Proof.
  unfold ascending, descending. induction 1 as [|k ks Hs IH Hf]; simpl.
  - constructor.
  - apply StronglySorted_app. repeat split; auto.
    + constructor; constructor.
    + intros x y Hx [<-|[]]. apply in_rev in Hx.
      rewrite Forall_forall in Hf. apply comparator_sym. auto.
Qed.

(** ** Every tree that the calls build is ordered *)

Lemma removeEffect_ascending (key : K) (t t' : Tree) :
  removeEffect key t t' -> ascending (keys (root t)) ->
  ascending (keys (root t')).
Proof.
  intros [(_ & ->)|(xs & k & vs & ys & _ & _ & En & En' & _)] Ha; [exact Ha|].
  unfold keys in *. rewrite En' , map_app. rewrite En, map_app in Ha.
  simpl in Ha. now apply ascending_remove in Ha.
Qed.

Lemma call_ascending (c : Call) (t : Tree) :
  Consistent t = true -> ascending (keys (root t)) ->
  exists t', call c t = Some t' /\ Consistent t' = true /\
             ascending (keys (root t')).
Proof.
  intros H Ha. destruct (call_Consistent c t H) as (t' & E & H').
  exists t'. split; [exact E|]. split; [exact H'|].
  apply Consistent_spec in H. destruct H as (HRB & _).
  assert (Hrm : forall key t1, Remove (Some key) t = Some t1 ->
                               ascending (keys (root t1))).
  { intros key t1 E1. destruct (Remove_effect key t HRB) as (t2 & E2 & _ & Eff).
    rewrite E1 in E2. inversion E2; subst t2.
    exact (removeEffect_ascending key t t1 Eff Ha). }
  destruct c as [[key|] [value|]|[key|]| | |]; cbn [call] in E.
  - destruct (Put_effect key value t HRB) as (t2 & E2 & _ & Eff).
    rewrite E in E2. inversion E2; subst t2.
    apply (putEffect_ascending key value t t' Eff Ha).
  - inversion E; subst. exact Ha.
  - inversion E; subst. exact Ha.
  - inversion E; subst. exact Ha.
  - eauto.
  - inversion E; subst. exact Ha.
  - inversion E; subst. constructor.
  - unfold PopMin, PopLeft in E. destruct (LeftEntry t) as [[k vs]|].
    + destruct (Remove (Some k) t) as [t1|] eqn:E1; [|discriminate].
      inversion E; subst. eauto.
    + inversion E; subst. exact Ha.
  - unfold PopMax, PopRight in E. destruct (RightEntry t) as [[k vs]|].
    + destruct (Remove (Some k) t) as [t1|] eqn:E1; [|discriminate].
      inversion E; subst. eauto.
    + inversion E; subst. exact Ha.
Qed.

(** Whatever the calls, the tree they leave is colored, counted and ordered:
    the trees the ordered claims speak of are all the trees there are. *)
Lemma run_ordered (cs : list Call) :
  exists t, run cs NewWith = Some t /\ Consistent t = true /\
            BST (root t) = true.
Proof.
  assert (H : forall t, Consistent t = true -> ascending (keys (root t)) ->
              exists t', run cs t = Some t' /\ Consistent t' = true /\
                         ascending (keys (root t'))).
  { induction cs as [|c cs IH]; intros t H Ha; simpl.
    - exists t. auto.
    - destruct (call_ascending c t H Ha) as (t1 & -> & H1 & Ha1).
      now apply IH. }
  destruct (H NewWith eq_refl) as (t & E & Hc & Ha); [constructor|].
  exists t. repeat split; auto. now apply BST_ascending.
Qed.

(** * The claims that need the order of the keys *)

(** C2: for every sequence of [Put], the in-order walk of the resulting tree
    (the ascending walk of the iterator) yields exactly the inserted keys,
    each once, in strictly ascending order of the comparator; and in every
    node the keys of the left subtree compare less than the key of the node
    and the keys of the right subtree greater. *)
Theorem Put_sequence_inorder_ascending (puts : list (option K * option V)) :
  exists t,
    putAll puts NewWith = Some t /\
    ascending (keys (root t)) /\
    NoDup (keys (root t)) /\
    (forall k, In k (keys (root t)) <-> In k (insertedKeys puts)) /\
    BST (root t) = true.
Proof.
  destruct (putAll_ok puts NewWith) as (t & E & _ & Ha & Hk).
  - reflexivity.
  - constructor.
  - exists t. repeat split; auto.
    + now apply ascending_NoDup.
    + intros H. apply Hk in H. destruct H as [H|[]]. exact H.
    + intros H. apply Hk. auto.
    + now apply BST_ascending.
Qed.

(** C4: [Remove] of a key of the tree deletes the key with all its values:
    afterwards [Get] does not find it, the other keys are still there, and
    [Size] has gone down by the number of values stored at the key; [Remove]
    of a key that is not in the tree changes nothing. *)
Theorem Remove_deletes_key_and_values (t : Tree) (key : K) :
  RedBlack (root t) = true -> BST (root t) = true ->
  (forall vs,
      Get (Some key) t = (vs, true) ->
      exists t',
        Remove (Some key) t = Some t' /\
        Get (Some key) t' = ([], false) /\
        Size t' = (Size t - Z.of_nat (List.length vs))%Z /\
        (forall k, In k (keys (root t')) <-> In k (keys (root t)) /\ k <> key))
  /\
  (Get (Some key) t = ([], false) -> Remove (Some key) t = Some t).
Proof.
  intros HRB Hb. apply BST_ascending in Hb. split.
  - intros vs Hg. apply Get_key in Hg. apply in_split in Hg.
    destruct Hg as (xs & ys & En).
    destruct (Remove_ordered key t xs ys vs HRB Hb En)
      as (t' & E & RB & En' & Es).
    exists t'. split; [exact E|].
    assert (Ha : ascending (map fst xs ++ key :: map fst ys)).
    { unfold keys in Hb. rewrite En, map_app in Hb. exact Hb. }
    assert (Hk' : keys (root t') = map fst xs ++ map fst ys).
    { unfold keys. now rewrite En', map_app. }
    assert (Hk : keys (root t) = map fst xs ++ key :: map fst ys).
    { unfold keys. now rewrite En, map_app. }
    repeat split.
    + destruct (Get_found_or_not key t') as [(vs' & Hg')|Hg']; [|exact Hg'].
      exfalso. apply Get_key, In_keys in Hg'. rewrite Hk' in Hg'.
      exact (ascending_not_In _ _ _ Ha Hg').
    + exact Es.
    + rewrite Hk' in H. rewrite Hk.
      apply in_app_or in H. apply in_or_app. simpl. tauto.
    + intros ->. rewrite Hk' in H. exact (ascending_not_In _ _ _ Ha H).
    + intros (H & Hne). rewrite Hk in H. rewrite Hk'.
      apply in_app_or in H. apply in_or_app. simpl in H.
      destruct H as [H|[H|H]]; auto. congruence.
  - unfold Get, Remove. destruct (lookup key t); [discriminate|reflexivity].
Qed.

(** C6: on a tree with a node, [Min] returns the smallest key with the value
    list of that key, found at the end of the descent to the left, and [Max]
    the largest key with its value list, found at the end of the descent to
    the right; on the empty tree both return the absent pair. *)
Theorem Min_Max_smallest_and_largest (t : Tree) :
  BST (root t) = true ->
  (root t = Nil -> Min t = None /\ Max t = None) /\
  (root t <> Nil ->
   exists kmin vmin kmax vmax,
     Min t = Some (kmin, vmin) /\ Max t = Some (kmax, vmax) /\
     Left t = vmin /\ Right t = vmax /\
     Get (Some kmin) t = (vmin, true) /\ Get (Some kmax) t = (vmax, true) /\
     forall k, In k (keys (root t)) ->
               (comparator kmin k <= 0)%Z /\ (comparator k kmax <= 0)%Z).
Proof.
  intros Hb. apply BST_ascending in Hb. split.
  - unfold Min, Max, LeftEntry, RightEntry. intros ->. auto.
  - intros Hn. unfold Min, Max. rewrite LeftEntry_hd, RightEntry_last.
    rewrite Left_hd, Right_last.
    destruct (entries (root t)) as [|[kmin vmin] es] eqn:En.
    { apply entries_nil in En. contradiction. }
    destruct (rev ((kmin, vmin) :: es)) as [|[kmax vmax] rs] eqn:Er.
    { apply (f_equal (@List.length _)) in Er. rewrite length_rev in Er.
      discriminate. }
    assert (En2 : entries (root t) = rev rs ++ [(kmax, vmax)]).
    { rewrite En, <- (rev_involutive ((kmin, vmin) :: es)), Er. reflexivity. }
    exists kmin, vmin, kmax, vmax. cbn [hd_error]. repeat split.
    + apply Get_present; auto. rewrite En. simpl. auto.
    + apply Get_present; auto. rewrite En2. apply in_or_app. simpl. auto.
    + unfold keys in *. rewrite En in *. simpl in *.
      inversion Hb as [|? ? _ Hf]; subst. rewrite Forall_forall in Hf.
      destruct H as [<-|H]; [rewrite comparator_refl; lia|].
      apply Hf in H. lia.
    + unfold keys in *. rewrite En2 in *. rewrite map_app in *. simpl in *.
      apply StronglySorted_app in Hb. destruct Hb as (_ & _ & Hxy).
      apply in_app_or in H. destruct H as [H|[<-|[]]].
      * specialize (Hxy k kmax H (or_introl eq_refl)). lia.
      * rewrite comparator_refl. lia.
Qed.

(** C7: popping the minimum until [Empty] yields the keys (with their
    values) in strictly ascending order, popping the maximum yields them in
    strictly descending order, and the tree is empty after exactly as many
    pops as it has keys. *)
Theorem PopMin_PopMax_until_Empty (t : Tree) (fuel : nat) :
  Consistent t = true -> BST (root t) = true ->
  List.length (keys (root t)) <= fuel ->
  exists ymin tmin ymax tmax,
    drainMin fuel t = Some (ymin, tmin) /\
    ymin = map Some (entries (root t)) /\
    ascending (keys (root t)) /\
    List.length ymin = List.length (keys (root t)) /\
    Empty tmin = true /\
    drainMax fuel t = Some (ymax, tmax) /\
    ymax = map Some (rev (entries (root t))) /\
    descending (rev (keys (root t))) /\
    List.length ymax = List.length (keys (root t)) /\
    Empty tmax = true.
Proof.
  intros H Hb Hfuel. apply BST_ascending in Hb.
  unfold keys in Hfuel. rewrite length_map in Hfuel.
  destruct (drainMin_ok (entries (root t)) t fuel eq_refl H Hb Hfuel)
    as (tmin & Emin & Hmin).
  destruct (drainMax_ok (entries (root t)) t fuel eq_refl H Hb Hfuel)
    as (tmax & Emax & Hmax).
  exists (map Some (entries (root t))), tmin,
         (map Some (rev (entries (root t)))), tmax.
  unfold keys. rewrite !length_map, length_rev.
  repeat split; auto. now apply ascending_rev.
Qed.

Lemma entries_unique (t : Tree) (k : K) (vs vs' : list V) :
  ascending (keys (root t)) ->
  In (k, vs) (entries (root t)) -> In (k, vs') (entries (root t)) -> vs = vs'.
Proof.
  intros Ha H H'. apply (Get_present k t vs Ha) in H.
  apply (Get_present k t vs' Ha) in H'. congruence.
Qed.

(** C8: [Floor] returns the values of the largest key of the tree that is
    less than or equal to the query, at once on an exact match, and
    [(nil, false)] when every key is greater; [Ceiling] returns the values of
    the smallest key that is greater than or equal to the query, and
    [(nil, false)] when every key is less. *)
Theorem Floor_Ceiling_nearest_key (t : Tree) (key : K) :
  BST (root t) = true ->
  ((exists k vs,
       In (k, vs) (entries (root t)) /\ (comparator k key <= 0)%Z /\
       (forall k', In k' (keys (root t)) -> (comparator k' key <= 0)%Z ->
                   (comparator k' k <= 0)%Z) /\
       Floor key t = (vs, true))
   \/
   ((forall k', In k' (keys (root t)) -> (comparator k' key > 0)%Z) /\
    Floor key t = ([], false)))
  /\
  ((exists k vs,
       In (k, vs) (entries (root t)) /\ (comparator k key >= 0)%Z /\
       (forall k', In k' (keys (root t)) -> (comparator k' key >= 0)%Z ->
                   (comparator k' k >= 0)%Z) /\
       Ceiling key t = (vs, true))
   \/
   ((forall k', In k' (keys (root t)) -> (comparator k' key < 0)%Z) /\
    Ceiling key t = ([], false)))
  /\
  (forall vs, In (key, vs) (entries (root t)) ->
              Floor key t = (vs, true) /\ Ceiling key t = (vs, true)).
Proof.
  intros Hb. apply BST_ascending in Hb. unfold Floor, Ceiling.
  pose proof (floorFrom_spec key (root t) [] false Hb) as HF.
  pose proof (ceilingFrom_spec key (root t) [] false Hb) as HC.
  split; [|split].
  - destruct HF as [(k & vs & Hin & Hle & Hmax & E)|(Hall & E)].
    + left. exists k, vs. repeat split; auto.
      * now apply comparator_le_ge.
      * intros k' Hk' Hle'. apply Hmax; auto. now apply comparator_le_ge.
    + right. split; [|exact E]. intros k' Hk'. apply comparator_sym. auto.
  - destruct HC as [(k & vs & Hin & Hle & Hmax & E)|(Hall & E)].
    + left. exists k, vs. repeat split; auto.
      * now apply comparator_le_ge.
      * intros k' Hk' Hge. apply Hmax; auto. now apply comparator_le_ge.
    + right. split; [|exact E]. intros k' Hk'. apply comparator_sym. auto.
  - intros vs Hin. pose proof (In_keys _ _ _ Hin) as Hk. split.
    + destruct HF as [(k & vs' & Hin' & Hle & Hmax & E)|(Hall & E)].
      * specialize (Hmax key Hk). rewrite comparator_refl in Hmax.
        assert (comparator key k = 0%Z) by lia.
        assert (k = key) by (symmetry; now apply comparator_eq). subst k.
        rewrite E. f_equal. apply (entries_unique t key vs' vs Hb Hin' Hin).
      * specialize (Hall key Hk). rewrite comparator_refl in Hall. lia.
    + destruct HC as [(k & vs' & Hin' & Hle & Hmax & E)|(Hall & E)].
      * specialize (Hmax key Hk). rewrite comparator_refl in Hmax.
        assert (comparator key k = 0%Z) by lia.
        assert (k = key) by (symmetry; now apply comparator_eq). subst k.
        rewrite E. f_equal. apply (entries_unique t key vs' vs Hb Hin' Hin).
      * specialize (Hall key Hk). rewrite comparator_refl in Hall. lia.
Qed.

(** * More of the engine under the order of the keys *)

(** ** What [Put] and [Remove] do to [Get] *)

Lemma Get_ext (key : K) (t t' : Tree) :
  ascending (keys (root t)) -> ascending (keys (root t')) ->
  (forall vs, In (key, vs) (entries (root t)) <->
              In (key, vs) (entries (root t'))) ->
  Get (Some key) t' = Get (Some key) t.
Proof.
  intros Ha Ha' H. destruct (Get_found_or_not key t) as [(vs & E)|E].
  - rewrite E. apply Get_present; [exact Ha'|]. apply H. now apply Get_key.
  - rewrite E. destruct (Get_found_or_not key t') as [(vs & E')|E'];
      [|exact E'].
    apply Get_key, H in E'. apply (Get_absent key t Ha) in E.
    exfalso. apply E. now apply In_keys in E'.
Qed.

Lemma In_other (k key : K) (w vs : list V) (xs ys : list (K * list V)) :
  k <> key -> In (k, w) (xs ++ (key, vs) :: ys) <-> In (k, w) (xs ++ ys).
Proof.
  intros Hne. rewrite !in_app_iff. simpl. split; [|tauto].
  intros [H|[H|H]]; auto. inversion H. congruence.
Qed.

Lemma Get_lookup (key : K) (t : Tree) (vs : list V) :
  Get (Some key) t = (vs, true) ->
  exists c l k r p, lookup key t = Some (Nd c l k vs r, p).
Proof.
  unfold Get. destruct (lookup key t) as [[m p]|] eqn:El; [|discriminate].
  intros E. unfold lookup in El. pose proof El as El'.
  apply lookupFrom_found in El'.
  destruct El' as (q & c & l & k & vs' & r & _ & _ & _ & -> & _).
  simpl in E. inversion E; subst. now exists c, l, k, r, p.
Qed.

Lemma duplicated_addValue (value : V) (vs : list V) :
  duplicated value (addValue value vs) = true.
Proof.
  unfold addValue. destruct (duplicated value vs) eqn:Ed; [exact Ed|].
  unfold duplicated. rewrite existsb_app. simpl.
  rewrite String.eqb_refl. now rewrite orb_true_r.
Qed.

Lemma addValue_In (value : V) (vs : list V) :
  exists v, In v (addValue value vs) /\ ID v = ID value.
Proof.
  pose proof (duplicated_addValue value vs) as H. unfold duplicated in H.
  apply existsb_exists in H. destruct H as (v & Hin & E).
  exists v. split; [exact Hin|]. now apply String.eqb_eq.
Qed.

(** [Put] on a colored and ordered tree: what [Get] finds afterwards. *)
Lemma Put_Get (key : K) (value : V) (t : Tree) :
  RedBlack (root t) = true -> ascending (keys (root t)) ->
  exists t',
    Put (Some key) (Some value) t = Some t' /\
    RedBlack (root t') = true /\ ascending (keys (root t')) /\
    Get (Some key) t' = (addValue value (fst (Get (Some key) t)), true) /\
    (forall k, k <> key -> Get (Some k) t' = Get (Some k) t) /\
    size t' =
      (size t + if duplicated value (fst (Get (Some key) t)) then 0 else 1)%Z.
Proof.
  intros HRB Ha. destruct (Put_effect key value t HRB) as (t' & E & RB & Eff).
  destruct (putEffect_ascending key value t t' Eff Ha) as (Ha' & _).
  exists t'. do 3 (split; [assumption|]).
  destruct Eff
    as [(xs & k & vs & ys & En & Hk & Hg & [(Hd & ->)|(Hd & En' & Hg' & Es)])
       |(q & Hg & _ & En & En' & Es)]; rewrite Hg; cbn [fst]; unfold addValue.
  - rewrite Hd. repeat split; auto. lia.
  - rewrite Hd. split; [exact Hg'|]. split; [|exact Es].
    intros k0 Hne. apply Get_ext; auto. intros w. rewrite En, En'.
    apply comparator_eq in Hk. subst k.
    rewrite !(In_other k0 key) by assumption. reflexivity.
  - simpl. split.
    + apply Get_present; [exact Ha'|]. rewrite En'.
      apply in_or_app. right. left. reflexivity.
    + split; [|exact Es]. intros k0 Hne. apply Get_ext; auto. intros w.
      rewrite En, En'. now rewrite (In_other k0 key).
Qed.

(** [Remove] on a colored and ordered tree: what [Get] finds afterwards. *)
Lemma Remove_Get (key : K) (t : Tree) :
  RedBlack (root t) = true -> ascending (keys (root t)) ->
  exists t',
    Remove (Some key) t = Some t' /\
    RedBlack (root t') = true /\ ascending (keys (root t')) /\
    Get (Some key) t' = ([], false) /\
    (forall k, k <> key -> Get (Some k) t' = Get (Some k) t).
Proof.
  intros HRB Ha. destruct (Remove_effect key t HRB) as (t' & E & RB & Eff).
  pose proof (removeEffect_ascending key t t' Eff Ha) as Ha'.
  exists t'. do 3 (split; [assumption|]).
  destruct Eff as [(Hg & ->)|(xs & k & vs & ys & Hk & Hg & En & En' & Es)];
    [auto|].
  apply comparator_eq in Hk. subst k. split.
  - destruct (Get_found_or_not key t') as [(w & E')|E']; [|exact E'].
    apply Get_key, In_keys in E'. exfalso.
    unfold keys in Ha, E'. rewrite En, map_app in Ha. simpl in Ha.
    apply ascending_not_In in Ha. apply Ha. now rewrite <- map_app, <- En'.
  - intros k0 Hne. apply Get_ext; auto. intros w. rewrite En, En'.
    now rewrite (In_other k0 key).
Qed.

Lemma Get_flag (key : K) (t : Tree) :
  Consistent t = true ->
  snd (Get (Some key) t) =
    match fst (Get (Some key) t) with [] => false | _ :: _ => true end.
Proof.
  intros H. apply Consistent_spec in H. destruct H as (_ & _ & Hn).
  destruct (Get_found_or_not key t) as [(vs & E)|E]; rewrite E; [|reflexivity].
  apply Get_key in E. apply (noEmptyList_In _ _ _ Hn) in E.
  destruct vs; [simpl in E; lia|reflexivity].
Qed.

Lemma call_Get (key : K) (c : Call) (t : Tree) :
  popFree c = true -> Consistent t = true -> ascending (keys (root t)) ->
  exists t',
    call c t = Some t' /\ Consistent t' = true /\
    ascending (keys (root t')) /\
    fst (Get (Some key) t') = valuesCall key c (fst (Get (Some key) t)).
Proof.
  intros Hp H Ha. destruct (call_ascending c t H Ha) as (t' & E & H' & Ha').
  exists t'. do 3 (split; [assumption|]).
  apply Consistent_spec in H. destruct H as (HRB & _).
  destruct c as [[k|] [v|]|[k|]| | |]; cbn [call valuesCall] in E |- *;
    try discriminate; try (inversion E; subst; reflexivity).
  - destruct (Put_Get k v t HRB Ha) as (t1 & E1 & _ & _ & Hg & Hf & _).
    rewrite E in E1. inversion E1; subst t1.
    destruct (Z.eqb_spec (comparator k key) 0) as [Hk|Hk].
    + apply comparator_eq in Hk. subst k. now rewrite Hg.
    + rewrite (Hf key); [reflexivity|].
      intros <-. apply Hk. apply comparator_refl.
  - destruct (Remove_Get k t HRB Ha) as (t1 & E1 & _ & _ & Hg & Hf).
    rewrite E in E1. inversion E1; subst t1.
    destruct (Z.eqb_spec (comparator k key) 0) as [Hk|Hk].
    + apply comparator_eq in Hk. subst k. now rewrite Hg.
    + rewrite (Hf key); [reflexivity|].
      intros <-. apply Hk. apply comparator_refl.
Qed.

Lemma run_Get (key : K) (cs : list Call) : forall t,
  forallb popFree cs = true ->
  Consistent t = true -> ascending (keys (root t)) ->
  exists t',
    run cs t = Some t' /\ Consistent t' = true /\
    fst (Get (Some key) t') = valuesRun key cs (fst (Get (Some key) t)).
Proof.
  induction cs as [|c cs IH]; intros t Hp H Ha; cbn [run valuesRun fold_left].
  - exists t. auto.
  - simpl in Hp. apply andb_prop in Hp. destruct Hp as (Hc & Hp).
    destruct (call_Get key c t Hc H Ha) as (t1 & -> & H1 & Ha1 & Hg).
    destruct (IH t1 Hp H1 Ha1) as (t' & E' & H' & Hg').
    exists t'. split; [exact E'|]. split; [exact H'|].
    rewrite Hg', Hg. reflexivity.
Qed.

(** X1: after [Put] of a value under a key, [Get] of the key finds a value
    list that holds a value with the identity of the one put; when the tree
    did not hold the key before, the list is the one value and [Size] has
    grown by one. *)
Theorem Get_after_Put (t : Tree) (key : K) (value : V) :
  RedBlack (root t) = true -> BST (root t) = true ->
  exists t' vs,
    Put (Some key) (Some value) t = Some t' /\
    Get (Some key) t' = (vs, true) /\
    (exists v, In v vs /\ ID v = ID value) /\
    (Get (Some key) t = ([], false) ->
     vs = [value] /\ Size t' = (Size t + 1)%Z).
Proof.
  intros HRB Hb. apply BST_ascending in Hb.
  destruct (Put_Get key value t HRB Hb) as (t' & E & _ & _ & Hg & _ & Es).
  exists t', (addValue value (fst (Get (Some key) t))).
  split; [exact E|]. split; [exact Hg|]. split; [apply addValue_In|].
  intros Hn. rewrite Hn in Es |- *. unfold Size. simpl in Es |- *. auto.
Qed.

(** X2: [Put] under one key leaves what [Get] finds under every other key as
    it was, whatever rotations the insertion makes. *)
Theorem Put_leaves_other_keys (t : Tree) (key k : K) (value : V) :
  RedBlack (root t) = true -> BST (root t) = true -> k <> key ->
  exists t',
    Put (Some key) (Some value) t = Some t' /\
    Get (Some k) t' = Get (Some k) t.
Proof.
  intros HRB Hb Hne. apply BST_ascending in Hb.
  destruct (Put_Get key value t HRB Hb) as (t' & E & _ & _ & _ & Hf & _).
  exists t'. auto.
Qed.

(** X3: [Remove] of one key leaves what [Get] finds under every other key as
    it was, also when the entry of the predecessor is moved into the node of
    the removed key and when the deletion cases rotate. *)
Theorem Remove_leaves_other_keys (t : Tree) (key k : K) :
  RedBlack (root t) = true -> BST (root t) = true -> k <> key ->
  exists t',
    Remove (Some key) t = Some t' /\
    Get (Some k) t' = Get (Some k) t.
Proof.
  intros HRB Hb Hne. apply BST_ascending in Hb.
  destruct (Remove_Get key t HRB Hb) as (t' & E & _ & _ & _ & Hf).
  exists t'. auto.
Qed.

(** X4: the same [Put] a second time changes nothing: the value is found as
    a duplicate by its identity and the tree, with its size, stays as the
    first [Put] left it. *)
Theorem Put_again_changes_nothing (t : Tree) (key : K) (value : V) :
  RedBlack (root t) = true -> BST (root t) = true ->
  exists t',
    Put (Some key) (Some value) t = Some t' /\
    Put (Some key) (Some value) t' = Some t'.
Proof.
  intros HRB Hb. apply BST_ascending in Hb.
  destruct (Put_Get key value t HRB Hb) as (t' & E & _ & _ & Hg & _).
  exists t'. split; [exact E|].
  destruct (Get_lookup key t' _ Hg) as (c & l & k & r & p & El).
  rewrite (Put_found key value t' c l k _ r p El).
  now rewrite duplicated_addValue.
Qed.

(** X5: [Remove] undoes a [Put] of a new key: the walk in order and [Size]
    are what they were before the [Put] (the shape and the colors may
    differ), and the tree is colored. *)
Theorem Remove_undoes_Put (t : Tree) (key : K) (value : V) :
  RedBlack (root t) = true -> BST (root t) = true ->
  Get (Some key) t = ([], false) ->
  exists t1 t2,
    Put (Some key) (Some value) t = Some t1 /\
    Remove (Some key) t1 = Some t2 /\
    entries (root t2) = entries (root t) /\
    Size t2 = Size t /\
    RedBlack (root t2) = true.
Proof.
  intros HRB Hb Hn. apply BST_ascending in Hb.
  destruct (Put_effect key value t HRB) as (t1 & E & RB1 & Eff).
  destruct (putEffect_ascending key value t t1 Eff Hb) as (Ha1 & _).
  destruct Eff as [(xs & k & vs & ys & _ & _ & Hg & _)
                  |(q & _ & _ & En & En1 & Es1)]; [congruence|].
  destruct (Remove_ordered key t1 _ _ _ RB1 Ha1 En1)
    as (t2 & E2 & RB2 & En2 & Es2).
  exists t1, t2. repeat split; auto; [congruence|].
  unfold Size. rewrite Es2, Es1. simpl. lia.
Qed.

(** X6: the tree is a map from keys to value lists: after a sequence of
    [Put], [Remove] and [Clear] from the empty tree, [Get] of a key finds
    the values put under it since it was last removed or the tree cleared,
    in the order of the calls and without those whose identity was there
    already; it reports the key as found when that list is not empty. *)
Theorem Get_after_calls (cs : list Call) (key : K) :
  forallb popFree cs = true ->
  exists t,
    run cs NewWith = Some t /\
    Get (Some key) t =
      (valuesRun key cs [],
       match valuesRun key cs [] with [] => false | _ :: _ => true end).
Proof.
  intros Hp. destruct (run_Get key cs NewWith Hp eq_refl) as (t & E & H & Hg);
    [constructor|].
  exists t. split; [exact E|].
  change (fst (Get (Some key) NewWith)) with (@nil V) in Hg.
  pose proof (Get_flag key t H) as Hf. rewrite Hg in Hf.
  destruct (Get (Some key) t) as [vs b]. cbn [fst snd] in Hg, Hf. now subst.
Qed.

(** X7: after every sequence of calls the tree is a search tree: in every
    node the keys of the left subtree compare less and those of the right
    subtree greater, so no key is in two nodes; [Remove] and the pops keep
    the order as [Put] does. *)
Theorem BST_after_every_call (cs : list Call) :
  exists t,
    run cs NewWith = Some t /\
    BST (root t) = true /\
    ascending (keys (root t)) /\
    NoDup (keys (root t)).
Proof.
  destruct (run_ordered cs) as (t & E & _ & Hb).
  exists t. split; [exact E|]. split; [exact Hb|].
  apply BST_ascending in Hb. split; [exact Hb|]. now apply ascending_NoDup.
Qed.

(** X8: [maximumNode] of a subtree is its last node in order, a node without
    right child; in a search tree it holds the largest key of the subtree,
    the predecessor [Remove] looks for in the left subtree. *)
Theorem maximumNode_is_last (n : Node) (p : path) :
  n <> Nil ->
  exists c l k vs q rest,
    maximumNode n p = (Nd c l k vs Nil, q ++ p) /\
    plug (Nd c l k vs Nil) q = n /\
    entries n = rest ++ [(k, vs)] /\
    (BST n = true -> forall x, In x (keys n) -> (comparator x k <= 0)%Z).
Proof.
  intros Hn. destruct (maximumNode_spec n Hn) as (q & c & l & k & vs & E & Hp & Ha).
  assert (En : entries n = (before q ++ entries l) ++ [(k, vs)]).
  { rewrite <- Hp, entries_plug, Ha. simpl. list_eq. }
  exists c, l, k, vs, q, (before q ++ entries l).
  split; [apply E|]. split; [exact Hp|]. split; [exact En|].
  intros Hb x Hx. apply BST_ascending in Hb. unfold keys in Hb, Hx.
  rewrite En, map_app in Hb, Hx. simpl in Hb, Hx.
  apply StronglySorted_app in Hb. destruct Hb as (_ & _ & Hb).
  apply in_app_or in Hx. destruct Hx as [Hx|[<-|[]]].
  - assert (comparator x k < 0)%Z by (apply Hb; simpl; auto). lia.
  - rewrite comparator_refl. lia.
Qed.

(** X14: after every sequence of calls [Empty], which reads the count of
    values, says true exactly when the tree holds no key, that is when [Get]
    finds nothing whatever the key. *)
Theorem Empty_exactly_without_keys (cs : list Call) :
  exists t,
    run cs NewWith = Some t /\
    (Empty t = true <-> keys (root t) = []) /\
    (Empty t = true <-> forall key, Get (Some key) t = ([], false)).
Proof.
  destruct (run_ordered cs) as (t & E & H & Hb).
  apply BST_ascending in Hb. pose proof (Empty_entries t H) as He.
  exists t. split; [exact E|]. split.
  - rewrite He. unfold keys. split; [now intros ->|apply map_eq_nil].
  - rewrite He. split.
    + intros En key. apply entries_nil in En. unfold Get, lookup.
      now rewrite En.
    + intros Hg. destruct (entries (root t)) as [|[k vs] rest] eqn:En;
        [reflexivity|].
      assert (Hin : In (k, vs) (entries (root t))) by (rewrite En; left; auto).
      apply (Get_present k t vs Hb) in Hin. rewrite Hg in Hin. discriminate.
Qed.

(** X16: [Get] is a complete search of a search tree: it finds a value list
    under a key exactly when the tree has a node with that key and that
    list, and reports nothing exactly when no node has the key. *)
Theorem Get_finds_exactly_the_entries (t : Tree) (key : K) :
  BST (root t) = true ->
  (forall vs,
      Get (Some key) t = (vs, true) <-> In (key, vs) (entries (root t))) /\
  (Get (Some key) t = ([], false) <-> ~ In key (keys (root t))).
Proof.
  intros Hb. apply BST_ascending in Hb. split.
  - intros vs. split; [apply Get_key|now apply Get_present].
  - split; [now apply Get_absent|].
    intros Hn. destruct (Get_found_or_not key t) as [(vs & E)|E]; [|exact E].
    apply Get_key, In_keys in E. contradiction.
Qed.

End Ordered.

(** * The claims that hold whatever the comparator is *)

(** C1: after every [Put] and every [Remove] (and every other mutating call,
    which ends in them) the tree is colored as a red-black tree: the root is
    black or the tree is empty, no red node has a red child, and from every
    node all paths down to a nil leaf pass the same number of black nodes. *)
Theorem RedBlack_after_every_call (cs : list Call) :
  exists t,
    run cs NewWith = Some t /\
    isBlack (nodeColor (root t)) = true /\
    noRedRed (root t) = true /\
    sameBlackCount (root t) = true.
Proof.
  destruct (run_Consistent cs NewWith eq_refl) as (t & E & H).
  apply Consistent_spec in H. destruct H as (HRB & _).
  unfold RedBlack in HRB. rewrite !andb_true_iff in HRB.
  exists t. tauto.
Qed.

(** C3: [Put] with a key that the tree holds: when a value of the key has
    the identity of the new value, the value list and [Size] stay as they
    are; when none has, the value is appended at the end of the list and
    [Size] grows by one. *)
Theorem Put_on_present_key (t : Tree) (key : K) (value : V) (vs : list V) :
  Get (Some key) t = (vs, true) ->
  ((exists v, In v vs /\ ID v = ID value) ->
   exists t',
     Put (Some key) (Some value) t = Some t' /\
     Get (Some key) t' = (vs, true) /\ Size t' = Size t)
  /\
  ((forall v, In v vs -> ID v <> ID value) ->
   exists t',
     Put (Some key) (Some value) t = Some t' /\
     Get (Some key) t' = (vs ++ [value], true) /\
     Size t' = (Size t + 1)%Z).
Proof.
  intros Hg. pose proof Hg as Hg0. unfold Get in Hg.
  destruct (lookup key t) as [[[|c l k vs' r] p]|] eqn:El; inversion Hg; subst.
  - unfold lookup in El. apply lookupFrom_found in El.
    destruct El as (q & c & l & k & vs & r & _ & _ & _ & E & _). discriminate.
  - rewrite (Put_found key value t c l k vs r p El). split.
    + intros (v & Hv & Hid).
      assert (Hd : duplicated value vs = true).
      { unfold duplicated. apply existsb_exists. exists v.
        split; [exact Hv|]. now apply String.eqb_eq. }
      rewrite Hd. exists t. auto.
    + intros Hnone.
      assert (Hd : duplicated value vs = false).
      { unfold duplicated. apply not_true_is_false. intros Hd.
        apply existsb_exists in Hd. destruct Hd as (v & Hv & Hid).
        apply String.eqb_eq in Hid. exact (Hnone v Hv Hid). }
      rewrite Hd. eexists. split; [reflexivity|]. split; [|reflexivity].
      unfold Get. now rewrite (lookup_setValues key t c l k vs r p _ _ El).
Qed.

(** C5: after every mutating call ([Put], [Remove], [Clear], [PopMin],
    [PopMax]) [Size] is the sum of the lengths of the value lists of all
    nodes, and it is zero exactly when the tree has no node. *)
Theorem Size_is_total_of_value_lists (cs : list Call) :
  exists t,
    run cs NewWith = Some t /\
    Size t = totalValues (root t) /\
    (Size t = 0%Z <-> root t = Nil).
Proof.
  destruct (run_Consistent cs NewWith eq_refl) as (t & E & H).
  apply Consistent_spec in H. destruct H as (_ & Hs & Hn).
  exists t. unfold Size, totalValues. repeat split; auto.
  - intros H0. rewrite Hs in H0. apply entries_nil. now apply valueCount_0.
  - intros Hr. rewrite Hs, Hr. reflexivity.
Qed.

(** C9: [Put] with a nil key or a nil value and [Remove] with a nil key
    return without an error and leave the tree as it was, nodes and size. *)
Theorem nil_key_or_value_changes_nothing (t : Tree) (key : option K)
    (value : option V) :
  Put None value t = Some t /\
  Put key None t = Some t /\
  Remove None t = Some t.
Proof.
  repeat split. destruct key; reflexivity.
Qed.

(** C10: after every call every node of the tree has a value list that is
    not empty; so a value list that [Get] finds has at least one element. *)
Theorem value_lists_are_never_empty (cs : list Call) :
  exists t,
    run cs NewWith = Some t /\
    (forall k vs, In (k, vs) (entries (root t)) -> vs <> []) /\
    (forall key vs, Get key t = (vs, true) -> 1 <= List.length vs).
Proof.
  destruct (run_Consistent cs NewWith eq_refl) as (t & E & H).
  apply Consistent_spec in H. destruct H as (_ & _ & Hn).
  exists t. repeat split; auto.
  - intros k vs Hin ->. apply (noEmptyList_In _ _ _ Hn) in Hin.
    simpl in Hin. lia.
  - intros [key|] vs Hg; [|discriminate].
    destruct (Get_entries key t vs Hg) as (k & _ & Hin).
    exact (noEmptyList_In _ _ _ Hn Hin).
Qed.

(** * More of the engine whatever the comparator is *)

(** ** The identities in a value list *)

Lemma duplicated_false (value : V) (vs : list V) :
  duplicated value vs = false -> ~ In (ID value) (map ID vs).
Proof.
  unfold duplicated. intros H Hin. apply in_map_iff in Hin.
  destruct Hin as (v & E & Hin).
  assert (existsb (fun v0 => String.eqb (ID v0) (ID value)) vs = true);
    [|congruence].
  apply existsb_exists. exists v. split; [exact Hin|]. now apply String.eqb_eq.
Qed.

Lemma NoDup_appended (value : V) (vs : list V) :
  NoDup (map ID vs) -> duplicated value vs = false ->
  NoDup (map ID (vs ++ [value])).
Proof.
  intros Hn Hd. rewrite map_app. apply NoDup_app; [exact Hn| |].
  - simpl. constructor; [simpl; tauto|constructor].
  - intros a Ha [<-|[]]. now apply (duplicated_false value vs).
Qed.

Lemma call_identities (c : Call) (t t' : Tree) :
  Consistent t = true ->
  Forall (fun e => NoDup (map ID (snd e))) (entries (root t)) ->
  call c t = Some t' ->
  Forall (fun e => NoDup (map ID (snd e))) (entries (root t')).
Proof.
  intros H HF E. apply Consistent_spec in H. destruct H as (HRB & _).
  assert (Hrm : forall key t1, Remove (Some key) t = Some t1 ->
            Forall (fun e => NoDup (map ID (snd e))) (entries (root t1))).
  { intros key t1 E1. destruct (Remove_effect key t HRB) as (t2 & E2 & _ & Eff).
    rewrite E1 in E2. inversion E2; subst t2.
    destruct Eff as [(_ & ->)|(xs & k & vs & ys & _ & _ & En & En' & _)];
      [exact HF|].
    rewrite En in HF. rewrite En'. apply Forall_app in HF.
    destruct HF as (Hx & Hy). inversion Hy; subst.
    apply Forall_app. auto. }
  destruct c as [[key|] [value|]|[key|]| | |]; cbn [call] in E.
  - destruct (Put_effect key value t HRB) as (t2 & E2 & _ & Eff).
    rewrite E in E2. inversion E2; subst t2.
    destruct Eff
      as [(xs & k & vs & ys & En & _ & _ & [(_ & ->)|(Hd & En' & _)])
         |(q & _ & _ & En & En' & _)]; [exact HF| |].
    + rewrite En in HF. rewrite En'. apply Forall_app in HF.
      destruct HF as (Hx & Hy). inversion Hy; subst.
      apply Forall_app. split; [exact Hx|]. constructor; [|assumption].
      simpl in *. now apply NoDup_appended.
    + rewrite En in HF. rewrite En'. apply Forall_app in HF.
      destruct HF as (Hx & Hy). apply Forall_app. split; [exact Hx|].
      constructor; [|exact Hy]. simpl. constructor; [simpl; tauto|constructor].
  - inversion E; subst. exact HF.
  - inversion E; subst. exact HF.
  - inversion E; subst. exact HF.
  - eauto.
  - inversion E; subst. exact HF.
  - inversion E; subst. constructor.
  - unfold PopMin, PopLeft in E. destruct (LeftEntry t) as [[k vs]|].
    + destruct (Remove (Some k) t) as [t1|] eqn:E1; [|discriminate].
      inversion E; subst. eauto.
    + inversion E; subst. exact HF.
  - unfold PopMax, PopRight in E. destruct (RightEntry t) as [[k vs]|].
    + destruct (Remove (Some k) t) as [t1|] eqn:E1; [|discriminate].
      inversion E; subst. eauto.
    + inversion E; subst. exact HF.
Qed.

Lemma run_identities (cs : list Call) : forall t,
  Consistent t = true ->
  Forall (fun e => NoDup (map ID (snd e))) (entries (root t)) ->
  exists t', run cs t = Some t' /\
    Forall (fun e => NoDup (map ID (snd e))) (entries (root t')).
Proof.
  induction cs as [|c cs IH]; intros t H HF; simpl.
  - exists t. auto.
  - destruct (call_Consistent c t H) as (t1 & E & H1). rewrite E.
    apply (IH t1 H1). exact (call_identities c t t1 H HF E).
Qed.

(** ** The height *)

Lemma rbt_height (n : Node) : forall h,
  rbt h n ->
  height n <= 2 * h + match nodeColor n with red => 1 | black => 0 end.
Proof.
  induction n as [|c l IHl k vs r IHr]; intros h H; simpl in *.
  - lia.
  - destruct c.
    + destruct h as [|h']; [contradiction|]. destruct H as (Hl & Hr).
      apply IHl in Hl. apply IHr in Hr.
      destruct (nodeColor l), (nodeColor r); lia.
    + destruct H as (Cl & Cr & Hl & Hr). apply IHl in Hl. apply IHr in Hr.
      rewrite Cl in Hl. rewrite Cr in Hr. lia.
Qed.

Lemma rbt_count (n : Node) : forall h,
  rbt h n -> 2 ^ h <= S (List.length (entries n)).
Proof.
  induction n as [|c l IHl k vs r IHr]; intros h H; simpl in *.
  - subst h. simpl. lia.
  - rewrite length_app. simpl. destruct c.
    + destruct h as [|h']; [contradiction|]. destruct H as (Hl & Hr).
      apply IHl in Hl. apply IHr in Hr. rewrite Nat.pow_succ_r'. lia.
    + destruct H as (_ & _ & Hl & _). apply IHl in Hl. lia.
Qed.

Lemma height_plug (q : path) : forall m,
  List.length q + height m <= height (plug m q).
Proof.
  induction q as [|f q IH]; intros m.
  - change (plug m []) with m. simpl. lia.
  - change (plug m (f :: q)) with (plug (fill f m) q).
    specialize (IH (fill f m)). destruct f; cbn [fill height List.length] in *; lia.
Qed.

(** ** Rotations *)

Lemma cells_plug (p : path) : forall n n',
  cells n = cells n' -> cells (plug n p) = cells (plug n' p).
Proof.
  induction p as [|f p IH]; intros n n' E; cbn [plug]; [exact E|].
  apply IH. destruct f; simpl; now rewrite E.
Qed.

(** ** The rendering *)

Lemma append_assoc (a b c : string) :
  ((a ++ b) ++ c)%string = (a ++ (b ++ c))%string.
Proof.
  induction a as [|x a IH]; simpl; [reflexivity|]. now rewrite IH.
Qed.

Lemma append_empty (a : string) : (a ++ EmptyString)%string = a.
Proof.
  induction a as [|x a IH]; simpl; [reflexivity|]. now rewrite IH.
Qed.

Lemma joined_app (xs ys : list string) :
  joined (xs ++ ys) = (joined xs ++ joined ys)%string.
Proof.
  induction xs as [|x xs IH]; simpl; [reflexivity|].
  now rewrite IH, append_assoc.
Qed.

(** The line of a key: an indentation, one of the two branch marks, the key
    as it prints, and the end of the line. *)
Lemma output_lines (format : K -> string) (n : Node) :
  n <> Nil ->
  forall prefix isTail str,
  exists lines,
    output format n prefix isTail str = Some (str ++ joined lines)%string /\
    Forall2
      (fun line k =>
         exists indent mark,
           line = (indent ++ mark ++ format k ++ newline)%string /\
           (mark = "└── "%string \/ mark = "┌── "%string))
      lines (rev (keys n)).
Proof.
  induction n as [|c l IHl k vs r IHr]; intros Hn prefix isTail str;
    [contradiction|].
  assert (Hr : forall p b s, exists lines,
             match r with
             | Nil => Some s
             | Nd _ _ _ _ _ => output format r p b s
             end = Some (s ++ joined lines)%string /\
             Forall2
               (fun line k =>
                  exists indent mark,
                    line = (indent ++ mark ++ format k ++ newline)%string /\
                    (mark = "└── "%string \/ mark = "┌── "%string))
               lines (rev (keys r))).
  { intros p b s. destruct r as [|rc rl rk rvs rr].
    - exists []. simpl. rewrite append_empty. split; [reflexivity|constructor].
    - apply IHr. discriminate. }
  assert (Hl : forall p b s, exists lines,
             match l with
             | Nil => Some s
             | Nd _ _ _ _ _ => output format l p b s
             end = Some (s ++ joined lines)%string /\
             Forall2
               (fun line k =>
                  exists indent mark,
                    line = (indent ++ mark ++ format k ++ newline)%string /\
                    (mark = "└── "%string \/ mark = "┌── "%string))
               lines (rev (keys l))).
  { intros p b s. destruct l as [|lc ll lk lvs lr].
    - exists []. simpl. rewrite append_empty. split; [reflexivity|constructor].
    - apply IHl. discriminate. }
  clear IHl IHr. cbn [output NodeString].
  destruct (Hr (prefix ++ if isTail then "│   " else "    ")%string false str)
    as (lr & -> & Fr).
  cbn beta iota zeta.
  destruct (Hl (prefix ++ if isTail then "    " else "│   ")%string true
              ((((str ++ joined lr) ++ prefix)
                ++ (if isTail then "└── " else "┌── "))
               ++ (format k ++ newline))%string)
    as (ll & -> & Fl).
  exists (lr ++ (prefix ++ (if isTail then "└── " else "┌── ")
                  ++ format k ++ newline)%string :: ll).
  split.
  - f_equal. rewrite joined_app. simpl. now rewrite !append_assoc.
  - rewrite keys_Nd, rev_app_distr. simpl. rewrite <- app_assoc. simpl.
    apply Forall2_app; [exact Fr|]. constructor; [|exact Fl].
    exists prefix, (if isTail then "└── " else "┌── ")%string.
    split; [reflexivity|]. destruct isTail; auto.
Qed.

(** X9: after every sequence of calls, no two values in a value list have
    the same identity: in every node of the tree, and so in every list that
    [Get] finds. *)
Theorem identities_unique_after_every_call (cs : list Call) :
  exists t,
    run cs NewWith = Some t /\
    (forall k vs, In (k, vs) (entries (root t)) -> NoDup (map ID vs)) /\
    (forall key vs, Get key t = (vs, true) -> NoDup (map ID vs)).
Proof.
  destruct (run_identities cs NewWith eq_refl) as (t & E & HF);
    [constructor|].
  rewrite Forall_forall in HF.
  exists t. split; [exact E|]. split.
  - intros k vs Hin. exact (HF (k, vs) Hin).
  - intros [key|] vs Hg; [|discriminate].
    destruct (Get_entries key t vs Hg) as (k & _ & Hin).
    exact (HF (k, vs) Hin).
Qed.


(** X11: [rotateLeft] keeps every node with its key, its values and its
    color in its place of the walk in order, and [rotateRight] at the parent
    the node has got takes the tree back to what it was. *)
Theorem rotateLeft_keeps_the_walk (node node' : loc) :
  rotateLeft node = Some node' ->
  cells (rootOf node') = cells (rootOf node) /\
  entries (rootOf node') = entries (rootOf node) /\
  exists up down,
    parent node' = Some up /\ rotateRight up = Some down /\
    parent down = Some node.
Proof.
  destruct node as [[|c a k vs [|rc b rk rvs d]] p]; try discriminate.
  unfold rotateLeft. cbn [fst snd replaceNode]. intros E. inversion E; subst.
  unfold rootOf. cbn [fst snd]. split; [|split].
  - change (plug (Nd c a k vs b) (LeftOf rc rk rvs d :: p))
      with (plug (Nd rc (Nd c a k vs b) rk rvs d) p).
    apply cells_plug. simpl. list_eq.
  - rewrite !entries_plug. simpl. list_eq.
  - do 2 eexists. split; [reflexivity|]. split; reflexivity.
Qed.

(** X12: [rotateRight] keeps every node with its key, its values and its
    color in its place of the walk in order, and [rotateLeft] at the parent
    the node has got takes the tree back to what it was. *)
Theorem rotateRight_keeps_the_walk (node node' : loc) :
  rotateRight node = Some node' ->
  cells (rootOf node') = cells (rootOf node) /\
  entries (rootOf node') = entries (rootOf node) /\
  exists up down,
    parent node' = Some up /\ rotateLeft up = Some down /\
    parent down = Some node.
Proof.
  destruct node as [[|c [|lc a lk lvs b] k vs d] p]; try discriminate.
  unfold rotateRight. cbn [fst snd replaceNode]. intros E. inversion E; subst.
  unfold rootOf. cbn [fst snd]. split; [|split].
  - change (plug (Nd c b k vs d) (RightOf lc a lk lvs :: p))
      with (plug (Nd lc a lk lvs (Nd c b k vs d)) p).
    apply cells_plug. simpl. list_eq.
  - rewrite !entries_plug. simpl. list_eq.
  - do 2 eexists. split; [reflexivity|]. split; reflexivity.
Qed.

(** X13: [String] renders a tree with its counts in order as the header
    line followed by one line for every key, from the largest key to the
    smallest; the line of a key is an indentation, a branch mark and the
    key as it prints. *)
Theorem String_lists_the_keys_downwards (format : K -> string) (t : Tree) :
  Consistent t = true ->
  exists lines,
    TreeString format t =
      Some (("RedBlackTree" ++ newline) ++ joined lines)%string /\
    Forall2
      (fun line k =>
         exists indent mark,
           line = (indent ++ mark ++ format k ++ newline)%string /\
           (mark = "└── "%string \/ mark = "┌── "%string))
      lines (rev (keys (root t))).
Proof.
  intros H. unfold TreeString. cbv zeta.
  pose proof (Empty_entries t H) as He.
  destruct (Empty t) eqn:Ee; cbn [negb].
  - exists []. split; [reflexivity|].
    unfold keys. rewrite (proj1 He eq_refl). constructor.
  - apply output_lines. intros Hn. rewrite Hn in He. simpl in He.
    destruct He as (_ & He). specialize (He eq_refl). discriminate.
Qed.

Lemma run_app (cs1 cs2 : list Call) : forall t,
  run (cs1 ++ cs2) t = (t' <- run cs1 t ;; run cs2 t').
Proof.
  induction cs1 as [|c cs1 IH]; intros t; simpl; [reflexivity|].
  destruct (call c t) as [t1|]; [apply IH|reflexivity].
Qed.

(** X15: [Clear] forgets whatever the calls before it have built: they end
    without panic, [Clear] leaves the tree of [NewWith], and the calls that
    follow act as on a new tree. *)
Theorem Clear_starts_anew (cs1 cs2 : list Call) :
  run (cs1 ++ [CallClear]) NewWith = Some NewWith /\
  run (cs1 ++ CallClear :: cs2) NewWith = run cs2 NewWith.
Proof.
  destruct (run_Consistent cs1 NewWith eq_refl) as (t & E & _).
  rewrite !run_app, E. split; reflexivity.
Qed.

End Engine.

Arguments Nil {K V}.
Arguments Nd {K V} c left key values right.
Arguments mkTree {K V} root size.
Arguments root {K V} t.
Arguments size {K V} t.
Arguments NewWith {K V}.
Arguments Put {K V} ID comparator key value tree.
Arguments Get {K V} comparator key tree.
Arguments Remove {K V} comparator key tree.
Arguments Size {K V} tree.
Arguments Empty {K V} tree.
Arguments Left {K V} tree.
Arguments Right {K V} tree.
Arguments Min {K V} tree.
Arguments Max {K V} tree.
Arguments Floor {K V} comparator key tree.
Arguments Ceiling {K V} comparator key tree.
Arguments entries {K V} n.
Arguments keys {K V} n.
Arguments RedBlack {K V} n.
Arguments BST {K V} comparator n.
Arguments Consistent {K V} tree.
Arguments ascending {K} comparator ks.
Arguments descending {K} comparator ks.
Arguments putAll {K V} ID comparator puts tree.
Arguments insertedKeys {K V} puts.
Arguments drainMin {K V} comparator fuel tree.
Arguments drainMax {K V} comparator fuel tree.
Arguments CallPut {K V} key value.
Arguments CallRemove {K V} key.
Arguments run {K V} ID comparator cs tree.
Arguments LeftOf {K V} c key values right.
Arguments RightOf {K V} c left key values.
Arguments CallClear {K V}.
Arguments plug {K V} n p.
Arguments rootOf {K V} node.
Arguments parent {K V} node.
Arguments rotateLeft {K V} node.
Arguments rotateRight {K V} node.
Arguments lookup {K V} comparator key tree.
Arguments maximumNode {K V} node p.
Arguments height {K V} n.
Arguments cells {K V} n.
Arguments TreeString {K V} format tree.
Arguments valuesRun {K V} ID comparator key cs values.
Arguments popFree {K V} c.

(** * The comparator and the values of the tests *)

Lemma IntComparator_eq (a b : Z) : IntComparator a b = 0%Z <-> a = b.
Proof.
  unfold IntComparator.
  destruct (Z.gtb_spec a b), (Z.ltb_spec a b); split; intros; lia.
Qed.

Lemma IntComparator_sym (a b : Z) :
  (IntComparator a b < 0)%Z <-> (IntComparator b a > 0)%Z.
Proof.
  unfold IntComparator.
  destruct (Z.gtb_spec a b), (Z.ltb_spec a b), (Z.gtb_spec b a),
    (Z.ltb_spec b a); split; intros; lia.
Qed.

Lemma IntComparator_trans (a b c : Z) :
  (IntComparator a b < 0)%Z -> (IntComparator b c < 0)%Z ->
  (IntComparator a c < 0)%Z.
Proof.
  unfold IntComparator.
  destruct (Z.gtb_spec a b), (Z.ltb_spec a b), (Z.gtb_spec b c),
    (Z.ltb_spec b c), (Z.gtb_spec a c), (Z.ltb_spec a c); intros; lia.
Qed.

Open Scope string_scope.
Open Scope Z_scope.

(** The scenario of the tests: the values A, B, C at key 1, D, E at key 2,
    F, G, H, I at key 3 and J at key 4 make ten values in four nodes; the
    minimum is key 1, the maximum key 4, and six values are left when key 3
    is removed. *)
Example test_scenario :
  exists t t' : Tree Z Entity,
    putAll EntityID IntComparator
      [(Some 1, Some "A"); (Some 1, Some "B"); (Some 1, Some "C");
       (Some 2, Some "D"); (Some 2, Some "E");
       (Some 3, Some "F"); (Some 3, Some "G"); (Some 3, Some "H");
       (Some 3, Some "I"); (Some 4, Some "J")] NewWith = Some t /\
    Size t = 10 /\ keys (root t) = [1; 2; 3; 4] /\
    Min t = Some (1, ["A"; "B"; "C"]) /\ Max t = Some (4, ["J"]) /\
    Get IntComparator (Some 3) t = (["F"; "G"; "H"; "I"], true) /\
    Remove IntComparator (Some 3) t = Some t' /\
    Size t' = 6 /\ keys (root t') = [1; 2; 4] /\
    RedBlack (root t') = true.
Proof.
  do 2 eexists. split; [vm_compute; reflexivity|].
  split; [reflexivity|]. split; [reflexivity|]. split; [reflexivity|].
  split; [reflexivity|]. split; [reflexivity|].
  split; [vm_compute; reflexivity|]. repeat split.
Qed.

(** Fifteen keys put in mixed order, then nine of them removed: the deletion
    cases with their rotations run, the walk in order is what is left. *)
Example test_removals :
  exists t : Tree Z Entity,
    run EntityID IntComparator
      (map (fun k => CallPut (Some k) (Some "v"))
         [5; 3; 8; 1; 4; 7; 9; 2; 6; 10; 11; 12; 13; 14; 15]
       ++ map (fun k => CallRemove (Some k)) [5; 3; 8; 1; 15; 10; 2; 6; 12])
      NewWith = Some t /\
    keys (root t) = [4; 7; 9; 11; 13; 14] /\ Size t = 6 /\
    RedBlack (root t) = true.
Proof.
  eexists. split; [vm_compute; reflexivity|]. repeat split.
Qed.

(** The keys 1, 2, 2, 3 put with the values A, D, E, F, as in the tests. *)
Lemma Put_sequence_inorder_ascending_witness :
  exists t : Tree Z Entity,
    putAll EntityID IntComparator
      [(Some 2, Some "D"); (Some 1, Some "A"); (Some 2, Some "E");
       (None, Some "X"); (Some 3, Some "F")] NewWith = Some t /\
    ascending IntComparator (keys (root t)) /\
    NoDup (keys (root t)) /\
    (forall k, In k (keys (root t)) <-> In k [2; 1; 2; 3]) /\
    BST IntComparator (root t) = true.
Proof.
  exact (Put_sequence_inorder_ascending Z Entity EntityID IntComparator
           IntComparator_eq IntComparator_sym IntComparator_trans
           [(Some 2, Some "D"); (Some 1, Some "A"); (Some 2, Some "E");
            (None, Some "X"); (Some 3, Some "F")]).
Defined.

Lemma Put_on_present_key_witness :
  let t : Tree Z Entity := mkTree (Nd black Nil 1 ["A"; "B"] Nil) 2 in
  Get IntComparator (Some 1) t = (["A"; "B"], true) /\
  ((exists v, In v ["A"; "B"] /\ EntityID v = EntityID "B") ->
   exists t',
     Put EntityID IntComparator (Some 1) (Some "B") t = Some t' /\
     Get IntComparator (Some 1) t' = (["A"; "B"], true) /\
     Size t' = Size t) /\
  ((forall v, In v ["A"; "B"] -> EntityID v <> EntityID "C") ->
   exists t',
     Put EntityID IntComparator (Some 1) (Some "C") t = Some t' /\
     Get IntComparator (Some 1) t' = ((["A"; "B"] ++ ["C"])%list, true) /\
     Size t' = Size t + 1).
Proof.
  cbv zeta. split; [reflexivity|]. split.
  - apply (Put_on_present_key Z Entity EntityID IntComparator
             (mkTree (Nd black Nil 1 ["A"; "B"] Nil) 2) 1 "B" ["A"; "B"]).
    reflexivity.
  - apply (Put_on_present_key Z Entity EntityID IntComparator
             (mkTree (Nd black Nil 1 ["A"; "B"] Nil) 2) 1 "C" ["A"; "B"]).
    reflexivity.
Defined.

Lemma Remove_deletes_key_and_values_witness :
  let t : Tree Z Entity :=
    mkTree (Nd black (Nd red Nil 1 ["A"] Nil) 2 ["D"; "E"]
              (Nd red Nil 3 ["F"] Nil)) 4 in
  RedBlack (root t) = true /\ BST IntComparator (root t) = true /\
  Get IntComparator (Some 2) t = (["D"; "E"], true) /\
  Get IntComparator (Some 7) t = ([], false) /\
  (exists t',
     Remove IntComparator (Some 2) t = Some t' /\
     Get IntComparator (Some 2) t' = ([], false) /\
     Size t' = Size t - 2) /\
  Remove IntComparator (Some 7) t = Some t.
Proof.
  cbv zeta. repeat (split; [reflexivity|]).
  pose proof (Remove_deletes_key_and_values Z Entity IntComparator
                IntComparator_eq IntComparator_sym IntComparator_trans
                (mkTree (Nd black (Nd red Nil 1 ["A"] Nil) 2 ["D"; "E"]
                           (Nd red Nil 3 ["F"] Nil)) 4)) as H.
  split.
  - destruct (H 2 eq_refl eq_refl) as (H2 & _).
    destruct (H2 ["D"; "E"] eq_refl) as (t' & E & G & S & _).
    exists t'. auto.
  - destruct (H 7 eq_refl eq_refl) as (_ & H7). apply H7. reflexivity.
Defined.

Lemma Min_Max_smallest_and_largest_witness :
  let t : Tree Z Entity :=
    mkTree (Nd black (Nd red Nil 1 ["A"] Nil) 2 ["D"; "E"]
              (Nd red Nil 3 ["F"] Nil)) 4 in
  BST IntComparator (root t) = true /\ root t <> Nil /\
  exists kmin vmin kmax vmax,
    Min t = Some (kmin, vmin) /\ Max t = Some (kmax, vmax) /\
    Left t = vmin /\ Right t = vmax /\
    Get IntComparator (Some kmin) t = (vmin, true) /\
    Get IntComparator (Some kmax) t = (vmax, true) /\
    forall k, In k (keys (root t)) ->
              IntComparator kmin k <= 0 /\ IntComparator k kmax <= 0.
Proof.
  cbv zeta. split; [reflexivity|]. split; [discriminate|].
  apply (Min_Max_smallest_and_largest Z Entity IntComparator
           IntComparator_eq IntComparator_sym IntComparator_trans
           (mkTree (Nd black (Nd red Nil 1 ["A"] Nil) 2 ["D"; "E"]
                      (Nd red Nil 3 ["F"] Nil)) 4)).
  - reflexivity.
  - discriminate.
Defined.

Lemma PopMin_PopMax_until_Empty_witness :
  let t : Tree Z Entity :=
    mkTree (Nd black (Nd red Nil 1 ["A"] Nil) 2 ["D"; "E"]
              (Nd red Nil 3 ["F"] Nil)) 4 in
  Consistent t = true /\ BST IntComparator (root t) = true /\
  (List.length (keys (root t)) <= 3)%nat /\
  exists ymin tmin ymax tmax,
    drainMin IntComparator 3 t = Some (ymin, tmin) /\
    ymin = map Some (entries (root t)) /\
    ascending IntComparator (keys (root t)) /\
    List.length ymin = List.length (keys (root t)) /\
    Empty tmin = true /\
    drainMax IntComparator 3 t = Some (ymax, tmax) /\
    ymax = map Some (rev (entries (root t))) /\
    descending IntComparator (rev (keys (root t))) /\
    List.length ymax = List.length (keys (root t)) /\
    Empty tmax = true.
Proof.
  cbv zeta. split; [reflexivity|]. split; [reflexivity|].
  split; [apply le_n|].
  apply (PopMin_PopMax_until_Empty Z Entity IntComparator
           IntComparator_eq IntComparator_sym IntComparator_trans
           (mkTree (Nd black (Nd red Nil 1 ["A"] Nil) 2 ["D"; "E"]
                      (Nd red Nil 3 ["F"] Nil)) 4) 3).
  - reflexivity.
  - reflexivity.
  - apply le_n.
Defined.

Lemma Floor_Ceiling_nearest_key_witness :
  let t : Tree Z Entity :=
    mkTree (Nd black (Nd red Nil 1 ["A"] Nil) 3 ["F"]
              (Nd red Nil 4 ["J"] Nil)) 3 in
  BST IntComparator (root t) = true /\
  Floor IntComparator 2 t = (["A"], true) /\
  Ceiling IntComparator 2 t = (["F"], true) /\
  Floor IntComparator 0 t = ([], false) /\
  Ceiling IntComparator 5 t = ([], false) /\
  (forall vs, In (4, vs) (entries (root t)) ->
              Floor IntComparator 4 t = (vs, true) /\
              Ceiling IntComparator 4 t = (vs, true)).
Proof.
  cbv zeta. repeat (split; [reflexivity|]).
  apply (Floor_Ceiling_nearest_key Z Entity IntComparator
           IntComparator_eq IntComparator_sym IntComparator_trans
           (mkTree (Nd black (Nd red Nil 1 ["A"] Nil) 3 ["F"]
                      (Nd red Nil 4 ["J"] Nil)) 3) 4).
  reflexivity.
Defined.

(** The rendering of the tree of the keys 1, 2 and 3: the right subtree
    above the root, the left subtree below it. *)
Example test_rendering :
  TreeString formatZ
    (mkTree (Nd black (Nd red Nil 1 ["A"] Nil) 2 ["D"] (Nd red Nil 3 ["F"] Nil))
       3 : Tree Z Entity)
  = Some (joined ["RedBlackTree"; newline;
                  "│   ┌── 3"; newline;
                  "└── 2"; newline;
                  "    └── 1"; newline]).
Proof.
  vm_compute. reflexivity.
Qed.

Lemma Get_after_Put_witness :
  let t : Tree Z Entity := mkTree (Nd black Nil 1 ["A"; "B"] Nil) 2 in
  RedBlack (root t) = true /\ BST IntComparator (root t) = true /\
  exists t' vs,
    Put EntityID IntComparator (Some 2) (Some "C") t = Some t' /\
    Get IntComparator (Some 2) t' = (vs, true) /\
    (exists v, In v vs /\ EntityID v = EntityID "C") /\
    (Get IntComparator (Some 2) t = ([], false) ->
     vs = ["C"] /\ Size t' = Size t + 1).
Proof.
  cbv zeta. split; [reflexivity|]. split; [reflexivity|].
  apply (Get_after_Put Z Entity EntityID IntComparator
           IntComparator_eq IntComparator_sym IntComparator_trans
           (mkTree (Nd black Nil 1 ["A"; "B"] Nil) 2) 2 "C"); reflexivity.
Defined.

Lemma Put_leaves_other_keys_witness :
  let t : Tree Z Entity := mkTree (Nd black Nil 1 ["A"; "B"] Nil) 2 in
  RedBlack (root t) = true /\ BST IntComparator (root t) = true /\ 1 <> 2 /\
  exists t',
    Put EntityID IntComparator (Some 2) (Some "C") t = Some t' /\
    Get IntComparator (Some 1) t' = Get IntComparator (Some 1) t.
Proof.
  cbv zeta. split; [reflexivity|]. split; [reflexivity|]. split; [lia|].
  apply (Put_leaves_other_keys Z Entity EntityID IntComparator
           IntComparator_eq IntComparator_sym IntComparator_trans
           (mkTree (Nd black Nil 1 ["A"; "B"] Nil) 2) 2 1 "C");
    [reflexivity|reflexivity|lia].
Defined.

Lemma Remove_leaves_other_keys_witness :
  let t : Tree Z Entity :=
    mkTree (Nd black (Nd red Nil 1 ["A"] Nil) 2 ["D"] (Nd red Nil 3 ["F"] Nil))
      3 in
  RedBlack (root t) = true /\ BST IntComparator (root t) = true /\ 1 <> 2 /\
  exists t',
    Remove IntComparator (Some 2) t = Some t' /\
    Get IntComparator (Some 1) t' = Get IntComparator (Some 1) t.
Proof.
  cbv zeta. split; [reflexivity|]. split; [reflexivity|]. split; [lia|].
  apply (Remove_leaves_other_keys Z Entity IntComparator
           IntComparator_eq IntComparator_sym IntComparator_trans
           (mkTree
              (Nd black (Nd red Nil 1 ["A"] Nil) 2 ["D"]
                 (Nd red Nil 3 ["F"] Nil)) 3) 2 1);
    [reflexivity|reflexivity|lia].
Defined.

Lemma Put_again_changes_nothing_witness :
  let t : Tree Z Entity := mkTree (Nd black Nil 1 ["A"; "B"] Nil) 2 in
  RedBlack (root t) = true /\ BST IntComparator (root t) = true /\
  exists t',
    Put EntityID IntComparator (Some 1) (Some "C") t = Some t' /\
    Put EntityID IntComparator (Some 1) (Some "C") t' = Some t'.
Proof.
  cbv zeta. split; [reflexivity|]. split; [reflexivity|].
  apply (Put_again_changes_nothing Z Entity EntityID IntComparator
           IntComparator_eq IntComparator_sym IntComparator_trans
           (mkTree (Nd black Nil 1 ["A"; "B"] Nil) 2) 1 "C"); reflexivity.
Defined.

Lemma Remove_undoes_Put_witness :
  let t : Tree Z Entity :=
    mkTree (Nd black (Nd red Nil 1 ["A"] Nil) 2 ["D"] (Nd red Nil 3 ["F"] Nil))
      3 in
  RedBlack (root t) = true /\ BST IntComparator (root t) = true /\
  Get IntComparator (Some 4) t = ([], false) /\
  exists t1 t2,
    Put EntityID IntComparator (Some 4) (Some "J") t = Some t1 /\
    Remove IntComparator (Some 4) t1 = Some t2 /\
    entries (root t2) = entries (root t) /\
    Size t2 = Size t /\
    RedBlack (root t2) = true.
Proof.
  cbv zeta. split; [reflexivity|]. split; [reflexivity|].
  split; [reflexivity|].
  apply (Remove_undoes_Put Z Entity EntityID IntComparator
           IntComparator_eq IntComparator_sym IntComparator_trans
           (mkTree
              (Nd black (Nd red Nil 1 ["A"] Nil) 2 ["D"]
                 (Nd red Nil 3 ["F"] Nil)) 3) 4 "J"); reflexivity.
Defined.

(** Values put under key 1, the key removed and values put again, between
    calls with other keys. *)
Lemma Get_after_calls_witness :
  forallb popFree
    [CallPut (Some 1) (Some "A"); CallPut (Some 2) (Some "D");
     CallRemove (Some 1); CallPut (Some 1) (Some "B");
     CallPut (Some 1) (Some "B"); CallPut (Some 1) (Some "C")
     : Call Z Entity] = true /\
  exists t : Tree Z Entity,
    run EntityID IntComparator
      [CallPut (Some 1) (Some "A"); CallPut (Some 2) (Some "D");
       CallRemove (Some 1); CallPut (Some 1) (Some "B");
       CallPut (Some 1) (Some "B"); CallPut (Some 1) (Some "C")] NewWith
    = Some t /\
    Get IntComparator (Some 1) t =
      (valuesRun EntityID IntComparator 1
         [CallPut (Some 1) (Some "A"); CallPut (Some 2) (Some "D");
          CallRemove (Some 1); CallPut (Some 1) (Some "B");
          CallPut (Some 1) (Some "B"); CallPut (Some 1) (Some "C")] [],
       match
         valuesRun EntityID IntComparator 1
           [CallPut (Some 1) (Some "A"); CallPut (Some 2) (Some "D");
            CallRemove (Some 1); CallPut (Some 1) (Some "B");
            CallPut (Some 1) (Some "B"); CallPut (Some 1) (Some "C")] []
       with [] => false | _ :: _ => true end).
Proof.
  split; [reflexivity|].
  apply (Get_after_calls Z Entity EntityID IntComparator
           IntComparator_eq IntComparator_sym IntComparator_trans
           [CallPut (Some 1) (Some "A"); CallPut (Some 2) (Some "D");
            CallRemove (Some 1); CallPut (Some 1) (Some "B");
            CallPut (Some 1) (Some "B"); CallPut (Some 1) (Some "C")] 1).
  reflexivity.
Defined.

Lemma BST_after_every_call_witness :
  exists t : Tree Z Entity,
    run EntityID IntComparator
      [CallPut (Some 2) (Some "D"); CallPut (Some 1) (Some "A");
       CallPut (Some 3) (Some "F"); CallRemove (Some 2)] NewWith = Some t /\
    BST IntComparator (root t) = true /\
    ascending IntComparator (keys (root t)) /\
    NoDup (keys (root t)).
Proof.
  exact (BST_after_every_call Z Entity EntityID IntComparator
           IntComparator_eq IntComparator_sym IntComparator_trans
           [CallPut (Some 2) (Some "D"); CallPut (Some 1) (Some "A");
            CallPut (Some 3) (Some "F"); CallRemove (Some 2)]).
Defined.

Lemma maximumNode_is_last_witness :
  let n : Node Z Entity :=
    Nd black (Nd red Nil 1 ["A"] Nil) 2 ["D"] (Nd red Nil 3 ["F"] Nil) in
  n <> Nil /\
  exists c l k vs q rest,
    maximumNode n [] = (Nd c l k vs Nil, (q ++ [])%list) /\
    plug (Nd c l k vs Nil) q = n /\
    entries n = (rest ++ [(k, vs)])%list /\
    (BST IntComparator n = true ->
     forall x, In x (keys n) -> IntComparator x k <= 0).
Proof.
  cbv zeta. split; [discriminate|].
  apply (maximumNode_is_last Z Entity IntComparator
           IntComparator_eq IntComparator_sym IntComparator_trans
           (Nd black (Nd red Nil 1 ["A"] Nil) 2 ["D"] (Nd red Nil 3 ["F"] Nil))
           []).
  discriminate.
Defined.

Lemma rotateLeft_keeps_the_walk_witness :
  let node : Node Z Entity * list (frame Z Entity) :=
    (Nd black Nil 1 ["A"] (Nd red Nil 2 ["D"] Nil), []) in
  let node' : Node Z Entity * list (frame Z Entity) :=
    (Nd black Nil 1 ["A"] Nil, [LeftOf red 2 ["D"] Nil]) in
  rotateLeft node = Some node' /\
  cells (rootOf node') = cells (rootOf node) /\
  entries (rootOf node') = entries (rootOf node) /\
  exists up down,
    parent node' = Some up /\ rotateRight up = Some down /\
    parent down = Some node.
Proof.
  cbv zeta. split; [reflexivity|].
  apply (rotateLeft_keeps_the_walk Z Entity
           (Nd black Nil 1 ["A"] (Nd red Nil 2 ["D"] Nil), [])
           (Nd black Nil 1 ["A"] Nil, [LeftOf red 2 ["D"] Nil])).
  reflexivity.
Defined.

Lemma rotateRight_keeps_the_walk_witness :
  let node : Node Z Entity * list (frame Z Entity) :=
    (Nd black (Nd red Nil 1 ["A"] Nil) 2 ["D"] Nil, []) in
  let node' : Node Z Entity * list (frame Z Entity) :=
    (Nd black Nil 2 ["D"] Nil, [RightOf red Nil 1 ["A"]]) in
  rotateRight node = Some node' /\
  cells (rootOf node') = cells (rootOf node) /\
  entries (rootOf node') = entries (rootOf node) /\
  exists up down,
    parent node' = Some up /\ rotateLeft up = Some down /\
    parent down = Some node.
Proof.
  cbv zeta. split; [reflexivity|].
  apply (rotateRight_keeps_the_walk Z Entity
           (Nd black (Nd red Nil 1 ["A"] Nil) 2 ["D"] Nil, [])
           (Nd black Nil 2 ["D"] Nil, [RightOf red Nil 1 ["A"]])).
  reflexivity.
Defined.

Lemma String_lists_the_keys_downwards_witness :
  let t : Tree Z Entity :=
    mkTree (Nd black (Nd red Nil 1 ["A"] Nil) 2 ["D"] (Nd red Nil 3 ["F"] Nil))
      3 in
  Consistent t = true /\
  exists lines,
    TreeString formatZ t = Some (("RedBlackTree" ++ newline) ++ joined lines) /\
    Forall2
      (fun line k =>
         exists indent mark,
           line = indent ++ mark ++ formatZ k ++ newline /\
           (mark = "└── " \/ mark = "┌── "))
      lines (rev (keys (root t))).
Proof.
  cbv zeta. split; [reflexivity|].
  apply (String_lists_the_keys_downwards Z Entity formatZ
           (mkTree
              (Nd black (Nd red Nil 1 ["A"] Nil) 2 ["D"]
                 (Nd red Nil 3 ["F"] Nil)) 3)).
  reflexivity.
Defined.

Lemma Empty_exactly_without_keys_witness :
  exists t : Tree Z Entity,
    run EntityID IntComparator
      [CallPut (Some 2) (Some "D"); CallPut (Some 1) (Some "A");
       CallRemove (Some 2); CallRemove (Some 1)] NewWith = Some t /\
    (Empty t = true <-> keys (root t) = []) /\
    (Empty t = true <->
     forall key, Get IntComparator (Some key) t = ([], false)).
Proof.
  exact (Empty_exactly_without_keys Z Entity EntityID IntComparator
           IntComparator_eq IntComparator_sym IntComparator_trans
           [CallPut (Some 2) (Some "D"); CallPut (Some 1) (Some "A");
            CallRemove (Some 2); CallRemove (Some 1)]).
Defined.

Lemma Get_finds_exactly_the_entries_witness :
  let t : Tree Z Entity :=
    mkTree (Nd black (Nd red Nil 1 ["A"] Nil) 2 ["D"] (Nd red Nil 3 ["F"] Nil))
      3 in
  BST IntComparator (root t) = true /\
  (forall vs,
      Get IntComparator (Some 3) t = (vs, true) <->
      In (3, vs) (entries (root t))) /\
  (Get IntComparator (Some 3) t = ([], false) <-> ~ In 3 (keys (root t))).
Proof.
  cbv zeta. split; [reflexivity|].
  apply (Get_finds_exactly_the_entries Z Entity IntComparator
           IntComparator_eq IntComparator_sym IntComparator_trans
           (mkTree
              (Nd black (Nd red Nil 1 ["A"] Nil) 2 ["D"]
                 (Nd red Nil 3 ["F"] Nil)) 3) 3).
  reflexivity.
Defined.
